(** * Pickleball queue: rotation, game ledger and wait-time prediction

    A shallow embedding of the queue service, the game service and the two
    wait-time predictors of the St Pete Pickleball queue application,
    followed by the properties established about them.

    Conventions of the embedding:
    - a Firestore collection is a [gmap] from document id to a record;
    - an [async] function is a computation in the monad [DB]: it reads and
      writes the store and may throw; [runTransaction] discards the writes
      of a computation that throws;
    - server timestamps, generated document ids and the results of ordered
      queries are arguments of the function that asks for them; a
      [FieldValue.serverTimestamp()] placed where Firestore does not accept
      it is kept as the sentinel it is, and the write that carries it
      throws;
    - the [players] collection is the set of the ids that have a document,
      and [notificationLogs] the list of the documents added;
    - a JavaScript number is an integer ([Z], or [nat] for an array length or
      a position derived from one) where the code only counts, a rational
      ([Q]) where it divides and rounds, and a real ([R]) where it calls
      [Math.exp]. *)

From Stdlib Require Import ZArith QArith Qround Qabs Qminmax Lqa Reals Lra Lia.
From stdpp Require Import base gmap strings list fin_maps pretty.

Local Open Scope Z_scope.

(** ** Data model *)

(** An entry of the [players] array of a queue document. *)
Record QueueEntry := mkQueueEntry {
  playerId : string;
  joinedAt : Z;
  position : nat;
  notified : bool
}.

Global Instance QueueEntry_eq_dec : EqDecision QueueEntry.
Proof. solve_decision. Defined.

(** A document of the [queues] collection.  The [players] field may be
    missing, which the code reads as [queueData.players || []]. *)
Record QueueDoc := mkQueueDoc {
  queue_courtId : string;
  queue_players : option (list QueueEntry);
  queue_updatedAt : Z
}.

Inductive TeamKey := team1 | team2.

Global Instance TeamKey_eq_dec : EqDecision TeamKey.
Proof. solve_decision. Defined.

Inductive GameStatus := in_progress | completed.

Global Instance GameStatus_eq_dec : EqDecision GameStatus.
Proof. solve_decision. Defined.

Record Teams := mkTeams {
  teams_team1 : list string;
  teams_team2 : list string
}.

(** [teams[key]] *)
Definition team (t : Teams) (k : TeamKey) : list string :=
  match k with
  | team1 => teams_team1 t
  | team2 => teams_team2 t
  end.

Record Score := mkScore {
  score_team1 : Z;
  score_team2 : Z
}.

(** A document of the [games] collection. *)
Record Game := mkGame {
  courtId : string;
  queueId : string;
  facilityId : string;
  players : list string;
  teams : Teams;
  startedAt : Z;
  endedAt : option Z;
  duration : option Z;
  score : option Score;
  winner : option TeamKey;
  status : GameStatus
}.

Inductive CourtStatus := available | in_game.

(** A document of the [courts] collection. *)
Record CourtDoc := mkCourtDoc {
  court_facilityId : string;
  court_status : CourtStatus;
  court_currentGame : option string
}.

(** A document of the [gameMetrics] collection. *)
Record GameMetric := mkGameMetric {
  metric_gameId : string;
  metric_duration : Z;
  metric_players : list string;
  metric_courtId : string;
  metric_facilityId : string;
  metric_timeOfDay : Z;
  metric_dayOfWeek : Z;
  metric_createdAt : Z
}.

(** The Firestore database. *)
Record Store := mkStore {
  queues : gmap string QueueDoc;
  games : gmap string Game;
  courts : gmap string CourtDoc;
  gameMetrics : list GameMetric
}.

Definition set_queues (f : gmap string QueueDoc → gmap string QueueDoc) (s : Store) : Store :=
  mkStore (f (queues s)) (games s) (courts s) (gameMetrics s).

Definition set_games (f : gmap string Game → gmap string Game) (s : Store) : Store :=
  mkStore (queues s) (f (games s)) (courts s) (gameMetrics s).

Definition set_courts (f : gmap string CourtDoc → gmap string CourtDoc) (s : Store) : Store :=
  mkStore (queues s) (games s) (f (courts s)) (gameMetrics s).

Definition add_gameMetric (m : GameMetric) (s : Store) : Store :=
  mkStore (queues s) (games s) (courts s) (gameMetrics s ++ [m]).

(** ** Errors and the store monad *)

(** The errors the services throw, one constructor per [new Error(...)] of
    the source, plus the failures of the platform the code can run into:
    [update] on a document that does not exist, a property read on
    [undefined], a [FieldValue.serverTimestamp()] inside an array, and an
    [undefined] field in a document to write. *)
Inductive Error :=
  | QueueNotFound
  | PlayerAlreadyInQueue
  | PlayerNotInQueue
  | GameNotFound
  | GameRequiresFourPlayers
  | InvalidTeamConfiguration
  | GameAlreadyEnded
  | DocumentNotFound
  | TypeError
  | ServerTimestampInArray
  | UndefinedFieldValue.

Global Instance Error_eq_dec : EqDecision Error.
Proof. solve_decision. Defined.

Definition message (e : Error) : string :=
  match e with
  | QueueNotFound => "Queue not found"
  | PlayerAlreadyInQueue => "Player already in queue"
  | PlayerNotInQueue => "Player not in queue"
  | GameNotFound => "Game not found"
  | GameRequiresFourPlayers => "Game requires exactly 4 players"
  | InvalidTeamConfiguration => "Invalid team configuration"
  | GameAlreadyEnded => "Game already ended"
  | DocumentNotFound => "NOT_FOUND: no document to update"
  | TypeError => "TypeError: cannot read properties of undefined"
  | ServerTimestampInArray =>
      "FieldValue.serverTimestamp() cannot be used inside of an array"
  | UndefinedFieldValue => "Cannot use undefined as a Firestore value"
  end.

(** A computation over the store that returns a value or throws.  A thrown
    error keeps the writes made before it, as a sequence of awaited
    Firestore calls does. *)
Definition DB (A : Type) : Type := Store → (Error + A) * Store.

Global Instance DB_ret : MRet DB := λ A x s, (inr x, s).

Global Instance DB_bind : MBind DB := λ A B f m s,
  match m s with
  | (inl e, s') => (inl e, s')
  | (inr a, s') => f a s'
  end.

Definition throw {A} (e : Error) : DB A := λ s, (inl e, s).

Definition gets {A} (f : Store → A) : DB A := λ s, (inr (f s), s).

Definition modify (f : Store → Store) : DB unit := λ s, (inr tt, f s).

(** [db.runTransaction]: all writes or none. *)
Definition runTransaction {A} (m : DB A) : DB A := λ s,
  match m s with
  | (inl e, _) => (inl e, s)
  | (inr a, s') => (inr a, s')
  end.

(** [ref.update(...)] and [transaction.update(ref, ...)]: the write fails
    when the document is missing. *)
Definition updateCourt (id : string) (f : CourtDoc → CourtDoc) : DB unit := λ s,
  match courts s !! id with
  | Some c => (inr tt, set_courts (insert id (f c)) s)
  | None => (inl DocumentNotFound, s)
  end.

Definition updateGame (id : string) (f : Game → Game) : DB unit := λ s,
  match games s !! id with
  | Some g => (inr tt, set_games (insert id (f g)) s)
  | None => (inl DocumentNotFound, s)
  end.

Definition updateQueue (id : string) (f : QueueDoc → QueueDoc) : DB unit := λ s,
  match queues s !! id with
  | Some q => (inr tt, set_queues (insert id (f q)) s)
  | None => (inl DocumentNotFound, s)
  end.

(** ** Array helpers *)

(** [queueData.players || []] *)
Definition playersOf (d : QueueDoc) : list QueueEntry :=
  default [] (queue_players d).

(** [arr.findIndex(p)], with [None] for -1. *)
Fixpoint findIndex {A} (p : A → bool) (l : list A) : option nat :=
  match l with
  | [] => None
  | x :: r => if p x then Some 0%nat else S <$> findIndex p r
  end.

(** [arr.map((p, idx) => ({...p, position: idx + 1}))] *)
Definition set_position (n : nat) (p : QueueEntry) : QueueEntry :=
  mkQueueEntry (playerId p) (joinedAt p) n (notified p).

Definition renumber (l : list QueueEntry) : list QueueEntry :=
  imap (λ idx p, set_position (idx + 1) p) l.

(** A time field of a document that is being written: a value, or the
    sentinel [FieldValue.serverTimestamp()] that the server replaces by its
    clock. *)
Inductive TimeField :=
  | timeValue (t : Z)
  | serverTimestamp.

(** The object [newPlayer] that [joinQueue] builds, before it is written. *)
Record NewQueueEntry := mkNewQueueEntry {
  new_playerId : string;
  new_joinedAt : TimeField;
  new_position : nat;
  new_notified : bool
}.

(** The check Firestore applies to an element handed to
    [FieldValue.arrayUnion]: the sentinel is accepted as a field of the
    document itself, not inside an array, where the write is refused. *)
Definition validArrayElement (x : NewQueueEntry) : option QueueEntry :=
  match new_joinedAt x with
  | timeValue t => Some (mkQueueEntry (new_playerId x) t (new_position x) (new_notified x))
  | serverTimestamp => None
  end.

(** [FieldValue.arrayUnion(x)]: appends [x] unless an equal element is
    already in the array. *)
Definition arrayUnion (l : list QueueEntry) (x : QueueEntry) : list QueueEntry :=
  if bool_decide (x ∈ l) then l else l ++ [x].

(** ** queue/QueueService.js *)

Module QueueService.

Definition ROTATION_THRESHOLD : Z := 8.
Definition MAX_CONSECUTIVE_WINS : Z := 3.

Record JoinResult := mkJoinResult {
  join_success : bool;
  join_position : nat;
  join_queueId : string;
  join_playersAhead : nat
}.

(** [now] is the server time that [updatedAt:
    FieldValue.serverTimestamp()] would store.  The same sentinel is the
    [joinedAt] of [newPlayer], the element given to [arrayUnion]. *)
Definition joinQueue (qid pid : string) (now : Z) : DB JoinResult :=
  runTransaction (
    queueDoc ← gets (λ s, queues s !! qid);
    match queueDoc with
    | None => throw QueueNotFound
    | Some queueData =>
        let players := playersOf queueData in
        if existsb (λ p, String.eqb (playerId p) pid) players
        then throw PlayerAlreadyInQueue
        else
          let position := (length players + 1)%nat in
          let newPlayer := mkNewQueueEntry pid serverTimestamp position false in
          match validArrayElement newPlayer with
          | None => throw ServerTimestampInArray
          | Some element =>
              updateQueue qid (λ d,
                mkQueueDoc (queue_courtId d) (Some (arrayUnion (playersOf d) element)) now);;
              mret (mkJoinResult true position qid (position - 1)%nat)
          end
    end).

Record LeaveResult := mkLeaveResult {
  leave_success : bool;
  leave_queueId : string
}.

Definition leaveQueue (qid pid : string) (now : Z) : DB LeaveResult :=
  runTransaction (
    queueDoc ← gets (λ s, queues s !! qid);
    match queueDoc with
    | None => throw QueueNotFound
    | Some queueData =>
        let players := playersOf queueData in
        match findIndex (λ p, String.eqb (playerId p) pid) players with
        | None => throw PlayerNotInQueue
        | Some playerIndex =>
            let players := renumber (delete playerIndex players) in
            updateQueue qid (λ d, mkQueueDoc (queue_courtId d) (Some players) now);;
            mret (mkLeaveResult true qid)
        end
    end).

Record GameResult := mkGameResult {
  winningTeam : list string;
  losingTeam : list string;
  winnerConsecutiveWins : Z
}.

Inductive RotationType := FULL | PARTIAL.

Inductive RotationReason := consecutive_win_limit | high_demand | normal_play.

Record Rotation := mkRotation {
  rotationType : RotationType;
  playersOff : list string;
  playersStay : list string;
  reason : RotationReason;
  nextUp : list string
}.

Definition determineRotation (gameResult : GameResult) (queuePlayers : list QueueEntry) : Rotation :=
  let queueLength := Z.of_nat (length queuePlayers) in
  let winnersExceededLimit := MAX_CONSECUTIVE_WINS <=? winnerConsecutiveWins gameResult in
  if (ROTATION_THRESHOLD <=? queueLength) || winnersExceededLimit
  then
    mkRotation FULL
      (winningTeam gameResult ++ losingTeam gameResult)
      []
      (if winnersExceededLimit then consecutive_win_limit else high_demand)
      (playerId <$> take 4 queuePlayers)
  else
    mkRotation PARTIAL
      (losingTeam gameResult)
      (winningTeam gameResult)
      normal_play
      (playerId <$> take 2 queuePlayers).

(** The test [playerIds.every(id => winners.includes(id))] of
    [getConsecutiveWins].  A game without a winner makes
    [game.teams[winnerKey]] undefined, and the test on it throws as soon as
    there is a player id to test. *)
Definition sameWinners (playerIds : list string) (game : Game) : Error + bool :=
  match winner game, playerIds with
  | None, [] => inr true
  | None, _ :: _ => inl TypeError
  | Some winnerKey, _ =>
      let winners := team (teams game) winnerKey in
      inr (forallb (λ id, bool_decide (id ∈ winners)) playerIds)
  end.

(** The loop of [getConsecutiveWins] over the documents [docs], most recent
    first, with its counter. *)
Fixpoint countConsecutiveWins (playerIds : list string) (docs : list Game)
    (consecutiveWins : Z) : Error + Z :=
  match docs with
  | [] => inr consecutiveWins
  | game :: rest =>
      match sameWinners playerIds game with
      | inl e => inl e
      | inr true => countConsecutiveWins playerIds rest (consecutiveWins + 1)
      | inr false => inr consecutiveWins
      end
  end.

(** [recentGames] stands for the completed games of the court ordered by
    [endedAt] descending; the query keeps [MAX_CONSECUTIVE_WINS] of them. *)
Definition getConsecutiveWins (playerIds : list string) (recentGames : list Game) : DB Z := λ s,
  (countConsecutiveWins playerIds (take (Z.to_nat MAX_CONSECUTIVE_WINS) recentGames) 0, s).

Record GameEndInput := mkGameEndInput {
  team1Score : Z;
  team2Score : Z
}.

Record GameEndResult := mkGameEndResult {
  end_gameId : string;
  end_duration : Z;
  end_rotation : Rotation;
  end_updatedQueueLength : nat
}.

Definition winningTeamKey (result : GameEndInput) : TeamKey :=
  if team2Score result <? team1Score result then team1 else team2.

Definition losingTeamKey (result : GameEndInput) : TeamKey :=
  match winningTeamKey result with
  | team1 => team2
  | team2 => team1
  end.

(** The queue update of [processGameEnd]: drop the next-up players and
    recompute the positions. *)
Definition removeNextUp (nextUp : list string) (players : list QueueEntry) : list QueueEntry :=
  renumber (filter (λ p, playerId p ∉ nextUp) players).

Definition processGameEnd (gid : string) (result : GameEndInput)
    (recentGames : list Game) (now : Z) : DB GameEndResult :=
  runTransaction (
    gameDoc ← gets (λ s, games s !! gid);
    match gameDoc with
    | None => throw GameNotFound
    | Some gameData =>
        queueDoc ← gets (λ s, queues s !! queueId gameData);
        let duration := now - startedAt gameData in
        wins ← getConsecutiveWins (team (teams gameData) (winningTeamKey result)) recentGames;
        let gameResult :=
          mkGameResult (team (teams gameData) (winningTeamKey result))
                       (team (teams gameData) (losingTeamKey result))
                       wins in
        match queueDoc with
        | None => throw TypeError
        | Some queueData =>
            let rotation := determineRotation gameResult (playersOf queueData) in
            updateGame gid (λ g,
              mkGame (courtId g) (queueId g) (facilityId g) (players g) (teams g)
                     (startedAt g) (Some now) (Some duration)
                     (Some (mkScore (team1Score result) (team2Score result)))
                     (Some (winningTeamKey result)) completed);;
            let updatedPlayers := removeNextUp (nextUp rotation) (playersOf queueData) in
            updateQueue (queueId gameData) (λ d,
              mkQueueDoc (queue_courtId d) (Some updatedPlayers) now);;
            mret (mkGameEndResult gid duration rotation (length updatedPlayers))
        end
    end).

End QueueService.

(** ** games/GameService.js *)

Module GameService.

(** The [teams] object of a request: either team may be missing. *)
Record TeamsInput := mkTeamsInput {
  input_team1 : option (list string);
  input_team2 : option (list string)
}.

Record CreatedGame := mkCreatedGame {
  created_gameId : string;
  created_game : Game
}.

(** [newId] is the document id [db.collection('games').add] generates and
    [now] the server timestamp it stores. *)
Definition createGame (cid qid : string) (plrs : list string) (tms : TeamsInput)
    (fid : string) (newId : string) (now : Z) : DB CreatedGame :=
  if negb (length plrs =? 4)%nat then throw GameRequiresFourPlayers
  else
    match input_team1 tms, input_team2 tms with
    | Some t1, Some t2 =>
        if negb (length t1 =? 2)%nat || negb (length t2 =? 2)%nat
        then throw InvalidTeamConfiguration
        else
          let gameData :=
            mkGame cid qid fid plrs (mkTeams t1 t2) now None None None None in_progress in
          modify (set_games (insert newId gameData));;
          updateCourt cid (λ c, mkCourtDoc (court_facilityId c) in_game (Some newId));;
          mret (mkCreatedGame newId gameData)
    | _, _ => throw InvalidTeamConfiguration
    end.

Record EndedGame := mkEndedGame {
  ended_gameId : string;
  ended_duration : Z;
  ended_score : Score;
  ended_winner : TeamKey;
  ended_winningTeam : list string;
  ended_losingTeam : list string
}.

Definition winnerOf (sc : Score) : TeamKey :=
  if score_team2 sc <? score_team1 sc then team1 else team2.

Definition storeGameMetrics (gid : string) (dur : Z) (plrs : list string)
    (cid fid : string) (timeOfDay dayOfWeek : Z) (now : Z) : DB unit :=
  modify (add_gameMetric (mkGameMetric gid dur plrs cid fid timeOfDay dayOfWeek now)).

(** [now] is [Timestamp.now().seconds]; [hours] and [day] are
    [now.toDate().getHours()] and [now.toDate().getDay()]. *)
Definition endGame (gid : string) (sc : Score) (now hours day : Z) : DB EndedGame :=
  gameDoc ← gets (λ s, games s !! gid);
  match gameDoc with
  | None => throw GameNotFound
  | Some gameData =>
      if bool_decide (status gameData = completed) then throw GameAlreadyEnded
      else
        let duration := now - startedAt gameData in
        let winner := winnerOf sc in
        updateGame gid (λ g,
          mkGame (courtId g) (queueId g) (facilityId g) (players g) (teams g)
                 (startedAt g) (Some now) (Some duration) (Some sc) (Some winner) completed);;
        updateCourt (courtId gameData) (λ c, mkCourtDoc (court_facilityId c) available None);;
        storeGameMetrics gid duration (players gameData) (courtId gameData)
          (facilityId gameData) hours day now;;
        mret (mkEndedGame gid duration sc winner
                (team (teams gameData) winner)
                (team (teams gameData) (match winner with team1 => team2 | team2 => team1 end)))
  end.

End GameService.

(** ** screens/OnCourtScreen.js *)

Module OnCourtScreen.

(** What [handleEndGame] shows: the alert that refuses the score, or the
    confirmation dialog whose "Confirm" button calls the [endGame] endpoint. *)
Inductive Dialog :=
  | InvalidScore (text : string)
  | EndGameConfirm (winnerName : string) (team1Score team2Score : Z).

Definition handleEndGame (team1Score team2Score : Z) : Dialog :=
  if team1Score =? team2Score then InvalidScore "Game cannot end in a tie"
  else
    let winnerName := if team2Score <? team1Score then "Team 1" else "Team 2" in
    EndGameConfirm winnerName team1Score team2Score.

End OnCourtScreen.

(** ** ml/PredictionService.js *)

Module PredictionService.

Local Open Scope R_scope.

Definition DEFAULT_GAME_DURATION_SECONDS : R := 15 * 60.
Definition MIN_GAMES_FOR_PREDICTION : nat := 10.

(** [Math.round] on a real: the nearest integer, halves upwards. *)
Definition round (x : R) : Z := Int_part (x + / 2).

(** [values.map((_, i) => Math.exp(-0.05 * i))] *)
Definition weightsOf (values : list R) : list R :=
  imap (λ i _, exp (- 0.05 * INR i)) values.

(** [arr.reduce((acc, val, i) => f acc val i, init)] *)
Definition reducei {A B} (f : B → A → nat → B) (l : list A) (init : B) : B :=
  fold_left (λ acc iv, f acc (snd iv) (fst iv)) (imap (λ i v, (i, v)) l) init.

Definition calculateWeightedAverage (values : list R) : R :=
  match values with
  | [] => DEFAULT_GAME_DURATION_SECONDS
  | _ :: _ =>
      let weights := weightsOf values in
      let weightSum := fold_left Rplus weights 0 in
      let weightedSum := reducei (λ sum val i, sum + val * nth i weights 0) values 0 in
      weightedSum / weightSum
  end.

(** The documents the three [gameMetrics] queries of
    [getAverageGameDuration] return, as their [duration] fields in query
    order; [facilityGames] is [None] when the court document does not
    exist. *)
Record MetricReads := mkMetricReads {
  contextualGames : list Z;
  allGames : list Z;
  facilityGames : option (list Z)
}.

Definition getAverageGameDuration (reads : MetricReads) : R :=
  if (MIN_GAMES_FOR_PREDICTION <=? length (contextualGames reads))%nat
  then calculateWeightedAverage (IZR <$> contextualGames reads)
  else if (MIN_GAMES_FOR_PREDICTION <=? length (allGames reads))%nat
  then calculateWeightedAverage (IZR <$> allGames reads)
  else
    match facilityGames reads with
    | Some durations =>
        if (MIN_GAMES_FOR_PREDICTION <=? length durations)%nat
        then calculateWeightedAverage (IZR <$> durations)
        else DEFAULT_GAME_DURATION_SECONDS
    | None => DEFAULT_GAME_DURATION_SECONDS
    end.

(** The numeric fields of the prediction ([confidence] is the promise of
    [calculateConfidence], which the function does not await). *)
Record Prediction := mkPrediction {
  estimatedWaitMinutes : Z;
  estimatedWaitSeconds : Z;
  gamesUntilUp : Z;
  averageGameDuration : Z
}.

Definition predictWaitTime (qid : string) (position : Z) (reads : MetricReads) : DB Prediction :=
  queueDoc ← gets (λ s, queues s !! qid);
  match queueDoc with
  | None => throw QueueNotFound
  | Some queueData =>
      let avgDuration := getAverageGameDuration reads in
      let gamesUntilUp := Qceiling (inject_Z position / 2) in
      let estimatedWaitSeconds := IZR gamesUntilUp * avgDuration in
      mret (mkPrediction (round (estimatedWaitSeconds / 60))
                         (round estimatedWaitSeconds)
                         gamesUntilUp
                         (round (avgDuration / 60)))
  end.

End PredictionService.

(** ** services/gameDuration.js (mobile application) *)

Module GameDurationService.

Local Open Scope Q_scope.

(** [Math.round] on a rational. *)
Definition round (x : Q) : Z := Qfloor (x + (1 # 2)).

Definition playersPerGame : Q := 4.
Definition parallelEfficiency : Q := 7 # 10.

Definition gamesNeeded (position : Z) : Z :=
  Qceiling (inject_Z position / playersPerGame).

Definition effectiveCourts (activeCourts : Q) : Q :=
  Qmax 1 (activeCourts * parallelEfficiency).

Definition estimatedMinutes (position : Z) (avgDurationMinutes activeCourts : Q) : Q :=
  (inject_Z (gamesNeeded position) * avgDurationMinutes) / effectiveCourts activeCourts.

Definition predictWaitTime (position : Z) (avgDurationMinutes activeCourts : Q) : Z :=
  if (position <=? 0)%Z then 0%Z
  else
    Z.max 0 (round (estimatedMinutes position avgDurationMinutes activeCourts / 5) * 5).

End GameDurationService.

(** ** data/mockData.js (mobile application) *)

Module MockData.

Inductive Confidence := low | medium | high.

Record Prediction := mkPrediction {
  estimatedWaitMinutes : Z;
  gamesUntilUp : Z;
  averageGameDuration : Z;
  confidence : Confidence
}.

Definition calculatePrediction (queueLength position : Z) : Prediction :=
  let avgGameDuration := 15 in
  let gamesUntilUp := Qceiling (inject_Z position / 4) in
  let estimatedWaitMinutes := gamesUntilUp * avgGameDuration in
  let confidence :=
    if queueLength <? 10 then low
    else if queueLength <? 50 then medium
    else high in
  mkPrediction estimatedWaitMinutes gamesUntilUp avgGameDuration confidence.

End MockData.

(** ** Queue invariant and operation sequences *)

(** The invariant of a queue's player list: the positions are [1..n] in list
    order and no player id occurs twice. *)
Definition queue_inv (l : list QueueEntry) : Prop :=
  position <$> l = seq 1 (length l) ∧ NoDup (playerId <$> l).

Definition store_inv (db : Store) : Prop :=
  ∀ qid d, queues db !! qid = Some d → queue_inv (playersOf d).

(** An entry without its position, which is recomputed from the list order. *)
Definition strip (p : QueueEntry) : string * Z * bool :=
  (playerId p, joinedAt p, notified p).

(** The entries of [after] whose player was already in [before] occur in
    [before], unchanged and in the same relative order. *)
Definition order_kept (before after : list QueueEntry) : Prop :=
  sublist (filter (λ e, e.1.1 ∈ playerId <$> before) (strip <$> after))
          (strip <$> before).

Definition step_stable (db db' : Store) : Prop :=
  ∀ qid d d', queues db !! qid = Some d → queues db' !! qid = Some d' →
    order_kept (playersOf d) (playersOf d').

(** The operations that change a queue.  A request that throws leaves the
    store as its transaction found it. *)
Inductive Op :=
  | OpJoin (qid pid : string) (now : Z)
  | OpLeave (qid pid : string) (now : Z)
  | OpGameEnd (gid : string) (result : QueueService.GameEndInput)
              (recentGames : list Game) (now : Z).

Definition exec (o : Op) (db : Store) : Store :=
  match o with
  | OpJoin qid pid now => snd (QueueService.joinQueue qid pid now db)
  | OpLeave qid pid now => snd (QueueService.leaveQueue qid pid now db)
  | OpGameEnd gid result recentGames now =>
      snd (QueueService.processGameEnd gid result recentGames now db)
  end.

Definition run (ops : list Op) (db : Store) : Store :=
  fold_left (λ s o, exec o s) ops db.

(** [P] holds between the stores before and after every operation of the
    sequence. *)
Fixpoint every_step (P : Store → Store → Prop) (ops : list Op) (db : Store) : Prop :=
  match ops with
  | [] => True
  | o :: rest => P db (exec o db) ∧ every_step P rest (exec o db)
  end.

(** ** Games in progress on a court *)

(** The number of games of the store that are in progress on court [cid]. *)
Definition inProgressOn (cid : string) (db : Store) : nat :=
  size (filter (λ kv : string * Game, courtId kv.2 = cid ∧ status kv.2 = in_progress)
               (games db)).

(** ** The weighted average as a sum *)

(** [big_sum f n] is the sum of [f i] for [i < n]. *)
Fixpoint big_sum (f : nat → R) (n : nat) : R :=
  match n with
  | O => 0%R
  | S k => (big_sum f k + f k)%R
  end.

Definition weight (i : nat) : R := exp (- 0.05 * INR i).

(** The formula of the weighted average, written as the quotient of the two
    sums over the sample indices. *)
Definition weighted_average_formula (v : list R) : R :=
  (big_sum (λ i, nth i v 0 * weight i) (length v) / big_sum weight (length v))%R.

(** ** Sample data *)

Module Sample.

Definition entry (pid : string) (pos : nat) : QueueEntry :=
  mkQueueEntry pid 0 pos false.

Definition queue2 : list QueueEntry := [entry "E" 1; entry "F" 2].

Definition queue7 : list QueueEntry :=
  [entry "E" 1; entry "F" 2; entry "G" 3; entry "H" 4; entry "I" 5;
   entry "J" 6; entry "K" 7].

Definition game1 : Game :=
  mkGame "court-1" "queue-1" "facility-1" ["A"; "B"; "C"; "D"]
         (mkTeams ["A"; "B"] ["C"; "D"]) 1000 None None None None in_progress.

Definition store : Store :=
  mkStore {[ "queue-1" := mkQueueDoc "court-1" (Some queue2) 0 ]}
          {[ "game-1" := game1 ]}
          {[ "court-1" := mkCourtDoc "facility-1" in_game (Some "game-1") ]}
          [].

(** G asks to join, E asks to join a second time, F leaves, and game-1 ends
    11-5. *)
Definition ops : list Op :=
  [OpJoin "queue-1" "G" 10;
   OpJoin "queue-1" "E" 11;
   OpLeave "queue-1" "F" 12;
   OpGameEnd "game-1" (QueueService.mkGameEndInput 11 5) [] 1720].

Definition teamsInput : GameService.TeamsInput :=
  GameService.mkTeamsInput (Some ["E"; "F"]) (Some ["G"; "H"]).

Definition reads720 : PredictionService.MetricReads :=
  PredictionService.mkMetricReads (replicate 10 720) [] None.

End Sample.

(** ** Further functions of the services *)

(** *** queue/QueueService.js: [getPlayersToNotify] *)

Inductive NotificationType :=
  | NEXT_UP
  | APPROACHING
  | GAME_STARTING
  | QUEUE_UPDATE
  | REMOVED_INACTIVE.

Module QueueQueries.

(** [{...player, notificationType}] *)
Record PlayerToNotify := mkPlayerToNotify {
  notify_player : QueueEntry;
  notificationType : NotificationType
}.

(** The [forEach] of [getPlayersToNotify] over the players of the queue. *)
Definition toNotify (players : list QueueEntry) : list PlayerToNotify :=
  (λ player,
     mkPlayerToNotify player
       (if (position player <=? 2)%nat then NEXT_UP else APPROACHING))
  <$> filter (λ player, (position player ≤ 4)%nat ∧ notified player = false) players.

Definition getPlayersToNotify (qid : string) : DB (list PlayerToNotify) :=
  queueDoc ← gets (λ s, queues s !! qid);
  match queueDoc with
  | None => mret []
  | Some queueData => mret (toNotify (playersOf queueData))
  end.

End QueueQueries.

(** *** notifications/NotificationService.js: [notifyNextPlayers] *)

Module NotificationService.

(** One call [sendNotification(playerId, type, {court, position})]. *)
Record NotificationRequest := mkNotificationRequest {
  request_playerId : string;
  request_type : NotificationType;
  request_court : option string;
  request_position : nat
}.

(** The [courtInfo] object of [notifyNextPlayers]; its [name] may be
    missing. *)
Record CourtInfo := mkCourtInfo {
  info_name : option string
}.

Definition set_notified (b : bool) (p : QueueEntry) : QueueEntry :=
  mkQueueEntry (playerId p) (joinedAt p) (position p) b.

(** The collection [notificationLogs]: the documents added by
    [sendNotification], oldest first. *)
Definition NotificationLogs := list NotificationRequest.

(** [sendNotification(playerId, type, data)] with [data = {court, position}].
    [registered] holds the ids that have a document in [players]; for any
    other id the call logs an error and returns.  For a registered player
    the message goes to the push and SMS channels, which catch their own
    errors, and the call ends with [notificationLogs.add({playerId, type,
    data, ...})].  A document whose [data.court] is [undefined] is refused
    by Firestore: the call throws and no log is written. *)
Definition sendNotification (registered : gset string) (request : NotificationRequest)
    (logs : NotificationLogs) : (Error + unit) * NotificationLogs :=
  if decide (request_playerId request ∈ registered)
  then
    match request_court request with
    | None => (inl UndefinedFieldValue, logs)
    | Some _ => (inr (), logs ++ [request])
    end
  else (inr (), logs).

(** The [for] loop of [notifyNextPlayers] from index [i] on, over the
    entries still to visit; [court] is [courtInfo.name].  It gives the
    visited entries, marked as notified, unless a [sendNotification]
    throws. *)
Fixpoint notifyLoop (registered : gset string) (court : option string) (i : nat)
    (players : list QueueEntry) (logs : NotificationLogs)
    : (Error + list QueueEntry) * NotificationLogs :=
  match players with
  | [] => (inr [], logs)
  | player :: rest =>
      let type := if (i <? 2)%nat then NEXT_UP else APPROACHING in
      match sendNotification registered
              (mkNotificationRequest (playerId player) type court (i + 1)) logs with
      | (inl e, logs') => (inl e, logs')
      | (inr _, logs') =>
          match notifyLoop registered court (S i) rest logs' with
          | (inl e, logs'') => (inl e, logs'')
          | (inr marked, logs'') => (inr (set_notified true player :: marked), logs'')
          end
      end
  end.

(** [courtInfo] is [None] when the caller passes [undefined] (the data of a
    court document that does not exist); reading [courtInfo.name] then
    throws in the first round of the loop.  The queue document is written
    after the loop, so not at all when the loop throws. *)
Definition notifyNextPlayers (registered : gset string) (qid : string)
    (courtInfo : option CourtInfo) (logs : NotificationLogs) (db : Store)
    : (Error + unit) * NotificationLogs * Store :=
  match queues db !! qid with
  | None => (inr (), logs, db)
  | Some queueData =>
      let players := playersOf queueData in
      match take 4 players, courtInfo with
      | _ :: _, None => (inl TypeError, logs, db)
      | first, _ =>
          match notifyLoop registered (courtInfo ≫= info_name) 0 first logs with
          | (inl e, logs') => (inl e, logs', db)
          | (inr marked, logs') =>
              let players := marked ++ drop 4 players in
              let '(result, db') :=
                updateQueue qid (λ d,
                  mkQueueDoc (queue_courtId d) (Some players) (queue_updatedAt d)) db in
              (result, logs', db')
          end
      end
  end.

End NotificationService.

(** *** index.js: the [onQueueUpdate] trigger *)

Module Triggers.

Import NotificationService.

(** The [for ... of afterPlayers] loop of the trigger. *)
Fixpoint notifyImproved (registered beforePlayers : gset string)
    (courtName : option string) (afterPlayers : list QueueEntry)
    (logs : NotificationLogs) : (Error + unit) * NotificationLogs :=
  match afterPlayers with
  | [] => (inr (), logs)
  | player :: rest =>
      let wasInQueue := bool_decide (playerId player ∈ beforePlayers) in
      if wasInQueue && (position player <=? 4)%nat && negb (notified player)
      then
        match sendNotification registered
                (mkNotificationRequest (playerId player)
                   (if (position player <=? 2)%nat then NEXT_UP else APPROACHING)
                   courtName (position player)) logs with
        | (inl e, logs') => (inl e, logs')
        | (inr _, logs') => notifyImproved registered beforePlayers courtName rest logs'
        end
      else notifyImproved registered beforePlayers courtName rest logs
  end.

(** [courtName] is the [courtName] field of the document after the update;
    no function of the repository writes that field. *)
Definition onQueueUpdate (registered : gset string) (before after : QueueDoc)
    (courtName : option string) (logs : NotificationLogs)
    : (Error + unit) * NotificationLogs :=
  let beforePlayers : gset string := list_to_set (playerId <$> playersOf before) in
  let afterPlayers := playersOf after in
  notifyImproved registered beforePlayers courtName afterPlayers logs.

End Triggers.

(** *** games/GameService.js: [getGame] *)

Module GameQueries.

Definition getGame (gid : string) : DB (string * Game) :=
  gameDoc ← gets (λ s, games s !! gid);
  match gameDoc with
  | None => throw GameNotFound
  | Some gameData => mret (gid, gameData)
  end.

End GameQueries.

(** The team configuration [createGame] accepts: both teams present, two
    players each. *)
Definition teams_accepted (tms : GameService.TeamsInput) : Prop :=
  ∃ t1 t2, GameService.input_team1 tms = Some t1 ∧
           GameService.input_team2 tms = Some t2 ∧
           length t1 = 2%nat ∧ length t2 = 2%nat.

(** All the durations the three metric queries returned are non-negative. *)
Definition reads_nonneg (reads : PredictionService.MetricReads) : Prop :=
  Forall (λ d, 0 ≤ d) (PredictionService.contextualGames reads) ∧
  Forall (λ d, 0 ≤ d) (PredictionService.allGames reads) ∧
  Forall (λ d, 0 ≤ d) (default [] (PredictionService.facilityGames reads)).

(** No query returned the [MIN_GAMES_FOR_PREDICTION] documents a tier
    needs. *)
Definition reads_insufficient (reads : PredictionService.MetricReads) : Prop :=
  (length (PredictionService.contextualGames reads) < 10)%nat ∧
  (length (PredictionService.allGames reads) < 10)%nat ∧
  (length (default [] (PredictionService.facilityGames reads)) < 10)%nat.

(** *** screens/OnCourtScreen.js: the score buttons *)

Module ScoreEntry.

Record ScreenState := mkScreenState {
  team1Score : Z;
  team2Score : Z;
  gameEnded : bool
}.

(** [useState(0)], [useState(0)], [useState(false)] *)
Definition initial : ScreenState := mkScreenState 0 0 false.

Definition incrementScore (team : Z) (st : ScreenState) : ScreenState :=
  if gameEnded st then st
  else if team =? 1
  then mkScreenState (Z.min (team1Score st + 1) 15) (team2Score st) (gameEnded st)
  else mkScreenState (team1Score st) (Z.min (team2Score st + 1) 15) (gameEnded st).

Definition decrementScore (team : Z) (st : ScreenState) : ScreenState :=
  if gameEnded st then st
  else if team =? 1
  then mkScreenState (Z.max (team1Score st - 1) 0) (team2Score st) (gameEnded st)
  else mkScreenState (team1Score st) (Z.max (team2Score st - 1) 0) (gameEnded st).

Inductive Press :=
  | Plus (team : Z)
  | Minus (team : Z).

Definition press (st : ScreenState) (b : Press) : ScreenState :=
  match b with
  | Plus team => incrementScore team st
  | Minus team => decrementScore team st
  end.

Definition presses (bs : list Press) (st : ScreenState) : ScreenState :=
  fold_left press bs st.

Definition scores_in_range (st : ScreenState) : Prop :=
  0 ≤ team1Score st ≤ 15 ∧ 0 ≤ team2Score st ≤ 15.

End ScoreEntry.

(** *** services/queueService.js (mobile application): the Firestore queue *)

Module ClientQueueService.

Definition FACILITY_ID : string := "st-pete-athletic".

(** An entry of the [players] array of a facility queue. *)
Record Player := mkPlayer {
  player_uid : string;
  player_name : string;
  player_joinedAt : string;
  player_position : nat
}.

(** A document of [facilities/{id}/queues], as far as these functions read
    and write it; its label, colour and court fields are never touched. *)
Record QueueDoc := mkQueueDoc {
  cq_players : option (list Player);
  cq_updatedAt : Z
}.

Record CurrentQueue := mkCurrentQueue {
  current_facilityId : string;
  current_queueId : string;
  current_position : nat;
  current_joinedAt : string
}.

(** A document of [users], as far as these functions read and write it. *)
Record UserDoc := mkUserDoc {
  user_currentQueue : option CurrentQueue;
  user_updatedAt : Z
}.

Record Store := mkStore {
  queues : gmap string QueueDoc;
  users : gmap string UserDoc
}.

Inductive Error :=
  | QueueNotFound
  | AlreadyInThisQueue
  | UserDocumentNotFound.

Definition message (e : Error) : string :=
  match e with
  | QueueNotFound => "Queue not found"
  | AlreadyInThisQueue => "Already in this queue"
  | UserDocumentNotFound => "NOT_FOUND: no document to update"
  end.

(** The signed-in user: [displayName] may be missing. *)
Record User := mkUser {
  auth_uid : string;
  auth_displayName : option string
}.

Definition playersOf (d : QueueDoc) : list Player := default [] (cq_players d).

(** [user.displayName || `Player ${n}`]: the empty name is falsy too. *)
Definition nameOr (displayName : option string) (n : nat) : string :=
  match displayName with
  | Some s => if String.eqb s "" then "Player " +:+ pretty n else s
  | None => "Player " +:+ pretty n
  end.

Definition renumber (l : list Player) : list Player :=
  imap (λ index p,
          mkPlayer (player_uid p) (player_name p) (player_joinedAt p) (index + 1)) l.

(** [nowIso] is [new Date().toISOString()], [now] the server timestamp.
    The transaction writes both documents or none. *)
Definition joinQueue (qid : string) (user : User) (nowIso : string) (now : Z) (s : Store)
    : (Error + Player) * Store :=
  match queues s !! qid with
  | None => (inl QueueNotFound, s)
  | Some queueData =>
      let players := playersOf queueData in
      if existsb (λ p, String.eqb (player_uid p) (auth_uid user)) players
      then (inl AlreadyInThisQueue, s)
      else
        let newPlayer :=
          mkPlayer (auth_uid user)
                   (nameOr (auth_displayName user) (length players + 1))
                   nowIso
                   (length players + 1) in
        (inr newPlayer,
         mkStore
           (<[qid := mkQueueDoc (Some (players ++ [newPlayer])) now]> (queues s))
           (<[auth_uid user :=
                mkUserDoc
                  (Some (mkCurrentQueue FACILITY_ID qid (player_position newPlayer)
                           (player_joinedAt newPlayer)))
                  now]> (users s)))
  end.

(** [transaction.update] of the user document fails the transaction when
    that document does not exist. *)
Definition leaveQueue (qid userId : string) (now : Z) (s : Store)
    : (Error + bool) * Store :=
  match queues s !! qid with
  | None => (inl QueueNotFound, s)
  | Some queueData =>
      let players := playersOf queueData in
      let updatedPlayers := renumber (filter (λ p, player_uid p ≠ userId) players) in
      match users s !! userId with
      | None => (inl UserDocumentNotFound, s)
      | Some _ =>
          (inr true,
           mkStore
             (<[qid := mkQueueDoc (Some updatedPlayers) now]> (queues s))
             (<[userId := mkUserDoc None now]> (users s)))
      end
  end.

Definition getUserQueueStatus (userId : string) (s : Store) : option CurrentQueue :=
  match users s !! userId with
  | None => None
  | Some u => user_currentQueue u
  end.

End ClientQueueService.

Module LedgerSample.

(** A completed game on court-1, A and B against C and D, won by [k]. *)
Definition wonBy (k : TeamKey) (ended : Z) : Game :=
  mkGame "court-1" "queue-1" "facility-1" ["A"; "B"; "C"; "D"]
         (mkTeams ["A"; "B"] ["C"; "D"]) (ended - 700) (Some ended) (Some 700)
         (Some (mkScore 5 11)) (Some k) completed.

(** The recent games of court-1, most recent first. *)
Definition recent : list Game := [wonBy team2 900; wonBy team2 800; wonBy team1 700].

End LedgerSample.

Module ClientSample.

Import ClientQueueService.

Definition beginner : QueueDoc :=
  mkQueueDoc (Some [mkPlayer "u1" "Mike" "2024-05-01T10:00:00.000Z" 1;
                    mkPlayer "u2" "Sarah" "2024-05-01T10:03:00.000Z" 2]) 0.

Definition advanced : QueueDoc := mkQueueDoc (Some []) 0.

Definition store : Store :=
  mkStore {[ "beginner" := beginner; "advanced" := advanced ]}
          {[ "u1" := mkUserDoc
                       (Some (mkCurrentQueue FACILITY_ID "beginner" 1
                                "2024-05-01T10:00:00.000Z")) 0 ]}.

Definition newcomer : User := mkUser "u3" None.

End ClientSample.

(** * Properties *)

(** ** Rotation policy *)

Section Rotation.

Import QueueService.

(** C1: when the winners have won at least [MAX_CONSECUTIVE_WINS] (3) games
    in a row, [determineRotation] answers FULL, takes all four players off
    (winning team then losing team), keeps nobody, and gives
    [consecutive_win_limit] as the reason, whatever the queue length. *)
Theorem determineRotation_consecutive_win_limit
    (gameResult : GameResult) (queuePlayers : list QueueEntry) :
  3 ≤ winnerConsecutiveWins gameResult →
  determineRotation gameResult queuePlayers =
    mkRotation FULL
      (winningTeam gameResult ++ losingTeam gameResult)
      []
      consecutive_win_limit
      (playerId <$> take 4 queuePlayers).
Proof.
  intros Hwins. unfold determineRotation, MAX_CONSECUTIVE_WINS.
  destruct (Z.leb_spec 3 (winnerConsecutiveWins gameResult)) as [_|Hlt]; [|lia].
  by rewrite orb_true_r.
Qed.

Lemma determineRotation_consecutive_win_limit_short_queue :
  3 ≤ 3 ∧
  Z.of_nat (length Sample.queue2) < ROTATION_THRESHOLD ∧
  determineRotation (mkGameResult ["A"; "B"] ["C"; "D"] 3) Sample.queue2 =
    mkRotation FULL ["A"; "B"; "C"; "D"] [] consecutive_win_limit ["E"; "F"].
Proof.
  split; [lia|]. split; [reflexivity|].
  apply (determineRotation_consecutive_win_limit
           (mkGameResult ["A"; "B"] ["C"; "D"] 3) Sample.queue2).
  simpl. lia.
Defined.

(** C2: below the consecutive-win limit the queue length decides.  With 8 or
    more waiting the rotation is FULL: all four players off, reason
    [high_demand], next up the first four queued player ids.  With fewer
    than 8 it is PARTIAL: the losing team off, the winning team stays,
    reason [normal_play], next up the first two queued player ids.  The
    function always answers, and [nextUp] is shorter when the queue is. *)
Theorem determineRotation_below_win_limit
    (gameResult : GameResult) (queuePlayers : list QueueEntry) :
  winnerConsecutiveWins gameResult < 3 →
  let rotation := determineRotation gameResult queuePlayers in
  let queueLength := Z.of_nat (length queuePlayers) in
  (if decide (8 ≤ queueLength)
   then rotation =
          mkRotation FULL
            (winningTeam gameResult ++ losingTeam gameResult)
            []
            high_demand
            (playerId <$> take 4 queuePlayers)
   else rotation =
          mkRotation PARTIAL
            (losingTeam gameResult)
            (winningTeam gameResult)
            normal_play
            (playerId <$> take 2 queuePlayers)) ∧
  length (nextUp rotation) =
    (match rotationType rotation with FULL => 4 | PARTIAL => 2 end
       `min` length queuePlayers)%nat.
Proof.
  intros Hwins rotation queueLength.
  subst rotation queueLength.
  unfold determineRotation, MAX_CONSECUTIVE_WINS, ROTATION_THRESHOLD.
  destruct (Z.leb_spec 3 (winnerConsecutiveWins gameResult)) as [Hge|_]; [lia|].
  rewrite orb_false_r.
  destruct (Z.leb_spec 8 (Z.of_nat (length queuePlayers))) as [Hlen|Hlen];
    case_decide; try lia; simpl;
    by rewrite length_fmap, length_take.
Qed.

Lemma determineRotation_below_win_limit_threshold_7 :
  0 < 3 ∧
  determineRotation (mkGameResult ["A"; "B"] ["C"; "D"] 0) Sample.queue7 =
    mkRotation PARTIAL ["C"; "D"] ["A"; "B"] normal_play ["E"; "F"].
Proof.
  split; [lia|].
  apply (determineRotation_below_win_limit
           (mkGameResult ["A"; "B"] ["C"; "D"] 0) Sample.queue7).
  simpl. lia.
Defined.

Example determineRotation_threshold_8 :
  determineRotation (mkGameResult ["A"; "B"] ["C"; "D"] 0)
    (Sample.queue7 ++ [Sample.entry "L" 8]) =
    mkRotation FULL ["A"; "B"; "C"; "D"] [] high_demand ["E"; "F"; "G"; "H"].
Proof. reflexivity. Qed.

Example determineRotation_empty_queue :
  determineRotation (mkGameResult ["A"; "B"] ["C"; "D"] 0) [] =
    mkRotation PARTIAL ["C"; "D"] ["A"; "B"] normal_play [].
Proof. reflexivity. Qed.

End Rotation.

(** ** Queue store *)

Ltac db_unfold :=
  unfold runTransaction, mbind, DB_bind, mret, DB_ret, gets, throw, modify,
    updateQueue, updateGame, updateCourt; simpl.

Section QueueStore.

Import QueueService.

Lemma existsb_playerId (pid : string) (l : list QueueEntry) :
  existsb (λ p, String.eqb (playerId p) pid) l = true ↔ pid ∈ playerId <$> l.
Proof.
  induction l as [|p l IH]; simpl.
  - split; [discriminate | by intros ?%elem_of_nil].
  - rewrite orb_true_iff, IH, elem_of_cons, String.eqb_eq.
    split; (intros [Heq|Hin]; [left; congruence | by right]).
Qed.

Lemma arrayUnion_fresh (l : list QueueEntry) (x : QueueEntry) :
  playerId x ∉ playerId <$> l → arrayUnion l x = l ++ [x].
Proof.
  intros Hfresh. unfold arrayUnion. case_bool_decide as Hin; [|done].
  destruct Hfresh. by apply list_elem_of_fmap_2.
Qed.

(** What one call of [joinQueue] does to the store: every path throws,
    and a transaction that throws writes nothing.  The path of a new player
    reaches [transaction.update] with the [serverTimestamp()] sentinel
    inside the [arrayUnion] element. *)
Lemma joinQueue_run (qid pid : string) (now : Z) (db : Store) :
  joinQueue qid pid now db =
    match queues db !! qid with
    | None => (inl QueueNotFound, db)
    | Some d =>
        if decide (pid ∈ playerId <$> playersOf d)
        then (inl PlayerAlreadyInQueue, db)
        else (inl ServerTimestampInArray, db)
    end.
Proof.
  unfold joinQueue. db_unfold.
  destruct (queues db !! qid) as [d|] eqn:Hq; [|done]. simpl.
  destruct (existsb _ (playersOf d)) eqn:Hex.
  - apply existsb_playerId in Hex. by rewrite decide_True.
  - assert (pid ∉ playerId <$> playersOf d) as Hfresh.
    { intros Hin%existsb_playerId. congruence. }
    by rewrite decide_False.
Qed.

(** C5: on an existing queue, [joinQueue] with a player id that is already
    in the queue throws "Player already in queue" and leaves the store
    unchanged, as claimed.  With a new player id it does not append the
    player and returns no position: the entry it builds carries
    [FieldValue.serverTimestamp()] as [joinedAt] and is handed to
    [FieldValue.arrayUnion], the write is refused, the call throws and the
    queue is left as it was. *)
Theorem joinQueue_new_player_throws (qid pid : string) (now : Z) (db : Store)
    (queueData : QueueDoc) :
  queues db !! qid = Some queueData →
  joinQueue qid pid now db =
    (inl (if decide (pid ∈ playerId <$> playersOf queueData)
          then PlayerAlreadyInQueue else ServerTimestampInArray), db) ∧
  ∀ result db', joinQueue qid pid now db ≠ (inr result, db').
Proof.
  intros Hq. rewrite joinQueue_run, Hq.
  split; [by case_decide | intros result db'; by case_decide].
Qed.

Lemma joinQueue_new_player_throws_sample :
  queues Sample.store !! "queue-1" = Some (mkQueueDoc "court-1" (Some Sample.queue2) 0) ∧
  joinQueue "queue-1" "G" 5 Sample.store =
    (inl (if decide ("G" ∈ playerId <$>
                       playersOf (mkQueueDoc "court-1" (Some Sample.queue2) 0))
          then PlayerAlreadyInQueue else ServerTimestampInArray), Sample.store) ∧
  ∀ result db', joinQueue "queue-1" "G" 5 Sample.store ≠ (inr result, db').
Proof.
  split; [reflexivity|].
  apply (joinQueue_new_player_throws "queue-1" "G" 5 Sample.store
           (mkQueueDoc "court-1" (Some Sample.queue2) 0)).
  reflexivity.
Defined.

Example joinQueue_new_player :
  joinQueue "queue-1" "G" 5 Sample.store = (inl ServerTimestampInArray, Sample.store) ∧
  joinQueue "queue-1" "E" 5 Sample.store = (inl PlayerAlreadyInQueue, Sample.store) ∧
  message ServerTimestampInArray =
    "FieldValue.serverTimestamp() cannot be used inside of an array".
Proof. repeat split; reflexivity. Qed.

(** The entry the code intends to append is accepted once its [joinedAt] is
    a value: the refusal is due to the sentinel alone. *)
Example validArrayElement_value :
  validArrayElement (mkNewQueueEntry "G" (timeValue 5) 3 false) =
    Some (mkQueueEntry "G" 5 3 false) ∧
  validArrayElement (mkNewQueueEntry "G" serverTimestamp 3 false) = None.
Proof. split; reflexivity. Qed.

(** *** Positions, membership and order under the queue updates *)

Lemma renumber_positions (l : list QueueEntry) :
  position <$> renumber l = seq 1 (length l).
Proof.
  unfold renumber. rewrite fmap_imap.
  rewrite (imap_ext _ (λ j _, S j)) by (intros; simpl; lia).
  by rewrite imap_seq_0, fmap_S_seq.
Qed.

Lemma renumber_strip (l : list QueueEntry) :
  strip <$> renumber l = strip <$> l.
Proof.
  unfold renumber. rewrite fmap_imap.
  rewrite (imap_ext _ (λ _, strip)) by done.
  apply (imap_const strip).
Qed.

Lemma renumber_playerId (l : list QueueEntry) :
  playerId <$> renumber l = playerId <$> l.
Proof.
  unfold renumber. rewrite fmap_imap.
  rewrite (imap_ext _ (λ _, playerId)) by done.
  apply (imap_const playerId).
Qed.

Lemma renumber_length (l : list QueueEntry) : length (renumber l) = length l.
Proof. apply length_imap. Qed.

(** Removing entries and renumbering: whatever is removed, the positions
    are dense again, no player is duplicated, and the order is kept. *)
Lemma queue_inv_removal (l l' : list QueueEntry) :
  l' `sublist_of` l → NoDup (playerId <$> l) → queue_inv (renumber l').
Proof.
  intros Hsub Hnodup. split.
  - by rewrite renumber_positions, renumber_length.
  - rewrite renumber_playerId.
    eapply sublist_NoDup; [done|]. by apply fmap_sublist.
Qed.

Lemma order_kept_removal (l l' : list QueueEntry) :
  l' `sublist_of` l → order_kept l (renumber l').
Proof.
  intros Hsub. unfold order_kept. rewrite renumber_strip.
  etrans; [apply sublist_filter|]. by apply fmap_sublist.
Qed.

Lemma order_kept_refl (l : list QueueEntry) : order_kept l l.
Proof. apply sublist_filter. Qed.

End QueueStore.

Section QueueInvariant.

Import QueueService.

Lemma leaveQueue_run (qid pid : string) (now : Z) (db : Store) :
  leaveQueue qid pid now db =
    match queues db !! qid with
    | None => (inl QueueNotFound, db)
    | Some d =>
        match findIndex (λ p, String.eqb (playerId p) pid) (playersOf d) with
        | None => (inl PlayerNotInQueue, db)
        | Some playerIndex =>
            (inr (mkLeaveResult true qid),
             set_queues
               (insert qid
                  (mkQueueDoc (queue_courtId d)
                     (Some (renumber (delete playerIndex (playersOf d)))) now))
               db)
        end
    end.
Proof.
  unfold leaveQueue. db_unfold.
  destruct (queues db !! qid) as [d|] eqn:Hq; [|done]. simpl.
  destruct (findIndex _ (playersOf d)) as [i|]; [|done]. simpl.
  by rewrite Hq.
Qed.

(** What a successful [processGameEnd] returns and writes. *)
Lemma processGameEnd_run (gid : string) (result : GameEndInput)
    (recentGames : list Game) (now : Z) (db : Store)
    (gameData : Game) (queueData : QueueDoc) (wins : Z) :
  games db !! gid = Some gameData →
  queues db !! queueId gameData = Some queueData →
  countConsecutiveWins (team (teams gameData) (winningTeamKey result))
    (take (Z.to_nat MAX_CONSECUTIVE_WINS) recentGames) 0 = inr wins →
  let rotation :=
    determineRotation
      (mkGameResult (team (teams gameData) (winningTeamKey result))
                    (team (teams gameData) (losingTeamKey result)) wins)
      (playersOf queueData) in
  let updatedPlayers := removeNextUp (nextUp rotation) (playersOf queueData) in
  processGameEnd gid result recentGames now db =
    (inr (mkGameEndResult gid (now - startedAt gameData) rotation (length updatedPlayers)),
     mkStore
       (<[queueId gameData :=
            mkQueueDoc (queue_courtId queueData) (Some updatedPlayers) now]> (queues db))
       (<[gid :=
            mkGame (courtId gameData) (queueId gameData) (facilityId gameData)
                   (players gameData) (teams gameData) (startedAt gameData)
                   (Some now) (Some (now - startedAt gameData))
                   (Some (mkScore (team1Score result) (team2Score result)))
                   (Some (winningTeamKey result)) completed]> (games db))
       (courts db) (gameMetrics db)).
Proof.
  intros Hg Hq Hwins. unfold processGameEnd, getConsecutiveWins. db_unfold.
  rewrite Hg. simpl. rewrite Hwins. rewrite Hq. simpl. rewrite Hg. simpl.
  by rewrite Hq.
Qed.

(** Every other [processGameEnd] throws, and its transaction writes
    nothing. *)
Lemma processGameEnd_queues (gid : string) (result : GameEndInput)
    (recentGames : list Game) (now : Z) (db : Store) :
  snd (processGameEnd gid result recentGames now db) = db ∨
  ∃ gameData queueData ids,
    queues db !! queueId gameData = Some queueData ∧
    queues (snd (processGameEnd gid result recentGames now db)) =
      <[queueId gameData :=
          mkQueueDoc (queue_courtId queueData)
            (Some (removeNextUp ids (playersOf queueData))) now]> (queues db).
Proof.
  destruct (games db !! gid) as [g|] eqn:Hg.
  2: { left. unfold processGameEnd. db_unfold. by rewrite Hg. }
  destruct (countConsecutiveWins (team (teams g) (winningTeamKey result))
              (take (Z.to_nat MAX_CONSECUTIVE_WINS) recentGames) 0)
    as [e|wins] eqn:Hwins.
  { left. unfold processGameEnd, getConsecutiveWins. db_unfold.
    rewrite Hg. simpl. by rewrite Hwins. }
  destruct (queues db !! queueId g) as [d|] eqn:Hq.
  2: { left. unfold processGameEnd, getConsecutiveWins. db_unfold.
       rewrite Hg. simpl. rewrite Hwins. by rewrite Hq. }
  right. exists g, d. eexists. split; [done|].
  by rewrite (processGameEnd_run _ _ _ _ _ _ _ _ Hg Hq Hwins).
Qed.

(** One operation either leaves the queues alone or rewrites the player
    list of one queue, keeping the invariant and the order. *)
Lemma exec_queues (o : Op) (db : Store) :
  queues (exec o db) = queues db ∨
  ∃ qid d l' t,
    queues db !! qid = Some d ∧
    queues (exec o db) = <[qid := mkQueueDoc (queue_courtId d) (Some l') t]> (queues db) ∧
    (queue_inv (playersOf d) → queue_inv l') ∧
    order_kept (playersOf d) l'.
Proof.
  destruct o as [qid pid now|qid pid now|gid result recentGames now]; simpl.
  - rewrite joinQueue_run.
    destruct (queues db !! qid) as [d|] eqn:Hq; [|by left].
    case_decide; by left.
  - rewrite leaveQueue_run.
    destruct (queues db !! qid) as [d|] eqn:Hq; [|by left].
    destruct (findIndex _ (playersOf d)) as [i|]; [|by left].
    right. exists qid, d. do 2 eexists. split; [done|]. split; [done|].
    split.
    + intros [_ Hnodup]. eapply queue_inv_removal; [apply sublist_delete|done].
    + apply order_kept_removal, sublist_delete.
  - destruct (processGameEnd_queues gid result recentGames now db)
      as [->|(g & d & ids & Hq & ->)]; [by left|].
    right. exists (queueId g), d. do 2 eexists. split; [done|]. split; [done|].
    unfold removeNextUp. split.
    + intros [_ Hnodup]. eapply queue_inv_removal; [apply sublist_filter|done].
    + apply order_kept_removal, sublist_filter.
Qed.

Lemma exec_store_inv (o : Op) (db : Store) : store_inv db → store_inv (exec o db).
Proof.
  intros Hinv qid d Hd.
  destruct (exec_queues o db) as [Heq|(qid' & d0 & l' & t & Hq & Heq & Hl' & _)];
    rewrite Heq in Hd.
  - by eapply Hinv.
  - destruct (decide (qid' = qid)) as [->|Hne].
    + rewrite lookup_insert_eq in Hd. injection Hd as <-. simpl.
      apply Hl'. by eapply Hinv.
    + rewrite lookup_insert_ne in Hd by done. by eapply Hinv.
Qed.

Lemma exec_step_stable (o : Op) (db : Store) : step_stable db (exec o db).
Proof.
  intros qid d d' Hd Hd'.
  destruct (exec_queues o db) as [Heq|(qid' & d0 & l' & t & Hq & Heq & _ & Hord)];
    rewrite Heq in Hd'.
  - rewrite Hd in Hd'. injection Hd' as <-. apply order_kept_refl.
  - destruct (decide (qid' = qid)) as [->|Hne].
    + rewrite lookup_insert_eq in Hd'. injection Hd' as <-. simpl.
      rewrite Hd in Hq. by injection Hq as <-.
    + rewrite lookup_insert_ne in Hd' by done.
      rewrite Hd in Hd'. injection Hd' as <-. apply order_kept_refl.
Qed.

Lemma run_store_inv (ops : list Op) (db : Store) :
  store_inv db → store_inv (run ops db).
Proof.
  revert db. induction ops as [|o ops IH]; intros db Hinv; simpl; [done|].
  apply IH. by apply exec_store_inv.
Qed.

Lemma run_every_step_stable (ops : list Op) (db : Store) :
  every_step step_stable ops db.
Proof.
  revert db. induction ops as [|o ops IH]; intros db; simpl; [done|].
  split; [apply exec_step_stable | apply IH].
Qed.

(** C4: from a store whose queues satisfy the invariant, every sequence of
    join, leave and game-end (rotation removal) requests ends in a store
    whose queues satisfy it again: in each queue the positions are exactly
    [1..n] in list order and no player id occurs twice.  Moreover every
    single request keeps the relative order (and the other fields) of the
    entries it does not remove. *)
Theorem queue_invariant_preserved (ops : list Op) (db : Store) :
  store_inv db →
  store_inv (run ops db) ∧ every_step step_stable ops db.
Proof.
  intros Hinv. split; [by apply run_store_inv | apply run_every_step_stable].
Qed.

(** A queue starts empty, and the empty queue satisfies the invariant. *)
Lemma queue_inv_nil : queue_inv [].
Proof. split; [done | apply NoDup_nil_2]. Qed.

Corollary run_from_empty_queues (ops : list Op) (db : Store) :
  (∀ qid d, queues db !! qid = Some d → playersOf d = []) →
  store_inv (run ops db).
Proof.
  intros Hempty. apply run_store_inv.
  intros qid d Hd. rewrite (Hempty qid d Hd). apply queue_inv_nil.
Qed.

Lemma queue_invariant_preserved_sample :
  store_inv Sample.store ∧
  store_inv (run Sample.ops Sample.store) ∧
  every_step step_stable Sample.ops Sample.store.
Proof.
  assert (store_inv Sample.store) as Hinv.
  { intros qid d Hd. unfold Sample.store in Hd. simpl in Hd.
    apply lookup_singleton_Some in Hd as [<- <-]. split; [reflexivity|].
    apply (bool_decide_unpack _). by vm_compute. }
  split; [exact Hinv|].
  apply (queue_invariant_preserved Sample.ops Sample.store Hinv).
Defined.

Example run_sample_queues :
  playersOf <$> queues (run [OpJoin "queue-1" "G" 10; OpJoin "queue-1" "E" 11;
                              OpLeave "queue-1" "F" 12] Sample.store) !! "queue-1"
    = Some [mkQueueEntry "E" 0 1 false] ∧
  playersOf <$> queues (run Sample.ops Sample.store) !! "queue-1" = Some [].
Proof. split; reflexivity. Qed.

(** A join never changes a queue, whatever the queue holds. *)
Example joinQueue_keeps_queue :
  playersOf <$>
    queues (exec (OpJoin "q" "F" 1)
              (mkStore {[ "q" := mkQueueDoc "c" (Some [mkQueueEntry "E" 0 5 false]) 0 ]}
                       ∅ ∅ [])) !! "q"
    = Some [mkQueueEntry "E" 0 5 false].
Proof. reflexivity. Qed.

End QueueInvariant.

(** ** The two conventions for the number of games until a player is up *)

Section GamesUntilUp.

Lemma Qceiling_div_pos (p : Z) (d : positive) :
  Qceiling (inject_Z p / (Z.pos d # 1)) = (p + Z.pos d - 1) / Z.pos d.
Proof.
  unfold Qceiling, Qfloor, Qdiv, Qmult, Qinv, Qopp, inject_Z. simpl.
  rewrite Z.mul_1_r.
  pose proof (Pos2Z.is_pos d).
  Z.div_mod_to_equations. nia.
Qed.

Lemma server_gamesUntilUp (qid : string) (position : Z)
    (reads : PredictionService.MetricReads) (db : Store) (queueData : QueueDoc) :
  queues db !! qid = Some queueData →
  ∃ prediction,
    PredictionService.predictWaitTime qid position reads db = (inr prediction, db) ∧
    PredictionService.gamesUntilUp prediction = (position + 1) / 2.
Proof.
  intros Hq. unfold PredictionService.predictWaitTime. db_unfold. rewrite Hq.
  eexists. split; [done|].
  unfold PredictionService.gamesUntilUp.
  rewrite (Qceiling_div_pos position 2). f_equal. lia.
Qed.

(** C7: the prediction paths disagree on [gamesUntilUp].  The server's
    [predictWaitTime] returns the ceiling of [position / 2]; the mobile
    application's [calculatePrediction] returns, and its [predictWaitTime]
    computes as [gamesNeeded], the ceiling of [position / 4].  For every
    position from 3 on the two values differ. *)
Theorem gamesUntilUp_paths_disagree (qid : string) (position queueLength : Z)
    (reads : PredictionService.MetricReads) (db : Store) (queueData : QueueDoc) :
  queues db !! qid = Some queueData →
  3 ≤ position →
  ∃ prediction,
    fst (PredictionService.predictWaitTime qid position reads db) = inr prediction ∧
    PredictionService.gamesUntilUp prediction = (position + 1) / 2 ∧
    MockData.gamesUntilUp (MockData.calculatePrediction queueLength position)
      = (position + 3) / 4 ∧
    GameDurationService.gamesNeeded position = (position + 3) / 4 ∧
    PredictionService.gamesUntilUp prediction
      ≠ MockData.gamesUntilUp (MockData.calculatePrediction queueLength position) ∧
    PredictionService.gamesUntilUp prediction ≠ GameDurationService.gamesNeeded position.
Proof.
  intros Hq Hpos.
  destruct (server_gamesUntilUp qid position reads db queueData Hq)
    as (prediction & Hrun & Hgames).
  exists prediction. rewrite Hrun, Hgames.
  assert (MockData.gamesUntilUp (MockData.calculatePrediction queueLength position)
            = (position + 3) / 4) as ->.
  { simpl. rewrite (Qceiling_div_pos position 4). f_equal. lia. }
  assert (GameDurationService.gamesNeeded position = (position + 3) / 4) as ->.
  { unfold GameDurationService.gamesNeeded, GameDurationService.playersPerGame.
    rewrite (Qceiling_div_pos position 4). f_equal. lia. }
  repeat split; try done; Z.div_mod_to_equations; lia.
Qed.

Lemma gamesUntilUp_paths_disagree_position_3 :
  queues Sample.store !! "queue-1" = Some (mkQueueDoc "court-1" (Some Sample.queue2) 0) ∧
  3 ≤ 3 ∧
  ∃ prediction,
    fst (PredictionService.predictWaitTime "queue-1" 3 Sample.reads720 Sample.store)
      = inr prediction ∧
    PredictionService.gamesUntilUp prediction = (3 + 1) / 2 ∧
    MockData.gamesUntilUp (MockData.calculatePrediction 2 3) = (3 + 3) / 4 ∧
    GameDurationService.gamesNeeded 3 = (3 + 3) / 4 ∧
    PredictionService.gamesUntilUp prediction
      ≠ MockData.gamesUntilUp (MockData.calculatePrediction 2 3) ∧
    PredictionService.gamesUntilUp prediction ≠ GameDurationService.gamesNeeded 3.
Proof.
  split; [reflexivity|]. split; [lia|].
  apply (gamesUntilUp_paths_disagree "queue-1" 3 2 Sample.reads720 Sample.store
           (mkQueueDoc "court-1" (Some Sample.queue2) 0)); [reflexivity | lia].
Defined.

Example gamesUntilUp_agree_below_3 :
  MockData.gamesUntilUp (MockData.calculatePrediction 2 2) = 1 ∧
  GameDurationService.gamesNeeded 2 = 1 ∧
  Qceiling (inject_Z 2 / 2) = 1.
Proof. by vm_compute. Qed.

End GamesUntilUp.

(** ** Game ledger *)

Section GameLedger.

Import GameService.

(** What [endGame] returns and writes for a game that has not ended and
    whose court document exists. *)
Lemma endGame_run (gid : string) (sc : Score) (now hours day : Z) (db : Store)
    (gameData : Game) (court : CourtDoc) :
  games db !! gid = Some gameData →
  status gameData = in_progress →
  courts db !! courtId gameData = Some court →
  let dur := now - startedAt gameData in
  endGame gid sc now hours day db =
    (inr (mkEndedGame gid dur sc (winnerOf sc)
            (team (teams gameData) (winnerOf sc))
            (team (teams gameData)
               (match winnerOf sc with team1 => team2 | team2 => team1 end))),
     mkStore
       (queues db)
       (<[gid :=
            mkGame (courtId gameData) (queueId gameData) (facilityId gameData)
                   (players gameData) (teams gameData) (startedAt gameData)
                   (Some now) (Some dur) (Some sc) (Some (winnerOf sc)) completed]>
          (games db))
       (<[courtId gameData := mkCourtDoc (court_facilityId court) available None]>
          (courts db))
       (gameMetrics db ++
          [mkGameMetric gid dur (players gameData) (courtId gameData)
             (facilityId gameData) hours day now])).
Proof.
  intros Hg Hstatus Hc. unfold endGame, storeGameMetrics. db_unfold.
  rewrite Hg. rewrite bool_decide_eq_false_2 by (rewrite Hstatus; done).
  simpl. rewrite Hg. simpl. by rewrite Hc.
Qed.

Lemma winnerOf_team1_iff (sc : Score) :
  winnerOf sc = team1 ↔ score_team2 sc < score_team1 sc.
Proof.
  unfold winnerOf. destruct (Z.ltb_spec (score_team2 sc) (score_team1 sc)).
  - done.
  - split; [done | lia].
Qed.

Lemma winningTeamKey_team1_iff (result : QueueService.GameEndInput) :
  QueueService.winningTeamKey result = team1
  ↔ QueueService.team2Score result < QueueService.team1Score result.
Proof.
  unfold QueueService.winningTeamKey.
  destruct (Z.ltb_spec (QueueService.team2Score result) (QueueService.team1Score result)).
  - done.
  - split; [done | lia].
Qed.

End GameLedger.

Section TiedScores.

Import GameService QueueService.

(** C10: a tied score is not rejected.  [endGame] and [processGameEnd] both
    pick the winner with a strict comparison: team1 wins exactly when its
    score is greater, team2 otherwise, so with equal scores team2 wins.
    For a game in progress whose court and queue documents exist, and any
    two scores, [endGame] returns that winner with its team and stores the
    game as completed with the score and that winner; [processGameEnd], run
    on the game in progress, rotates with that team as the winning team and
    stores the game as completed with the score and that winner, and so it
    does when it runs after [endGame], as the end-game request has it. *)
Theorem tied_score_declares_team2 (gid : string) (s1 s2 : Z)
    (now1 hours day now2 now3 : Z) (recentGames : list Game) (db : Store)
    (gameData : Game) (court : CourtDoc) (queueData : QueueDoc) (wins : Z) :
  games db !! gid = Some gameData →
  status gameData = in_progress →
  courts db !! courtId gameData = Some court →
  queues db !! queueId gameData = Some queueData →
  let w := if decide (s1 > s2) then team1 else team2 in
  let l := if decide (s1 > s2) then team2 else team1 in
  countConsecutiveWins (team (teams gameData) w)
    (take (Z.to_nat MAX_CONSECUTIVE_WINS) recentGames) 0 = inr wins →
  let stored (now : Z) :=
    mkGame (courtId gameData) (queueId gameData) (facilityId gameData)
      (players gameData) (teams gameData) (startedAt gameData)
      (Some now) (Some (now - startedAt gameData)) (Some (mkScore s1 s2))
      (Some w) completed in
  let rotation :=
    determineRotation
      (mkGameResult (team (teams gameData) w) (team (teams gameData) l) wins)
      (playersOf queueData) in
  let updatedPlayers := removeNextUp (nextUp rotation) (playersOf queueData) in
  (s1 = s2 → w = team2 ∧ l = team1) ∧
  (∃ db2,
     processGameEnd gid (mkGameEndInput s1 s2) recentGames now2 db =
       (inr (mkGameEndResult gid (now2 - startedAt gameData) rotation
               (length updatedPlayers)), db2) ∧
     games db2 !! gid = Some (stored now2) ∧
     queues db2 !! queueId gameData =
       Some (mkQueueDoc (queue_courtId queueData) (Some updatedPlayers) now2)) ∧
  ∃ db1 db3,
    endGame gid (mkScore s1 s2) now1 hours day db =
      (inr (mkEndedGame gid (now1 - startedAt gameData) (mkScore s1 s2) w
              (team (teams gameData) w) (team (teams gameData) l)), db1) ∧
    games db1 !! gid = Some (stored now1) ∧
    processGameEnd gid (mkGameEndInput s1 s2) recentGames now3 db1 =
      (inr (mkGameEndResult gid (now3 - startedAt gameData) rotation
              (length updatedPlayers)), db3) ∧
    games db3 !! gid = Some (stored now3).
Proof.
  intros Hg Hstatus Hc Hq w l Hwins stored rotation updatedPlayers.
  assert (winnerOf (mkScore s1 s2) = w) as Hw.
  { unfold winnerOf, w. simpl.
    destruct (Z.ltb_spec s2 s1); case_decide; first [done | exfalso; lia]. }
  assert (winningTeamKey (mkGameEndInput s1 s2) = w) as Hk.
  { unfold winningTeamKey, w. simpl.
    destruct (Z.ltb_spec s2 s1); case_decide; first [done | exfalso; lia]. }
  assert (losingTeamKey (mkGameEndInput s1 s2) = l) as Hl.
  { unfold losingTeamKey. rewrite Hk. unfold w, l. by case_decide. }
  assert (match w with team1 => team2 | team2 => team1 end = l) as Hl'.
  { unfold w, l. by case_decide. }
  split.
  { intros ->. unfold w, l. rewrite !decide_False by lia. done. }
  split.
  - pose proof (processGameEnd_run gid (mkGameEndInput s1 s2) recentGames now2 db
                  gameData queueData wins Hg Hq) as Hrot.
    rewrite Hk, Hl in Hrot. specialize (Hrot Hwins). simpl in Hrot.
    eexists. split; [exact Hrot|]. simpl. by rewrite !lookup_insert_eq.
  - pose proof (endGame_run gid (mkScore s1 s2) now1 hours day db gameData court
                  Hg Hstatus Hc) as Hend.
    simpl in Hend. rewrite Hw, Hl' in Hend.
    eexists _, _. split; [exact Hend|]. simpl.
    rewrite lookup_insert_eq. split; [done|].
    match goal with
    | |- processGameEnd _ _ _ _ ?db1 = _ ∧ _ =>
        pose proof (processGameEnd_run gid (mkGameEndInput s1 s2) recentGames now3 db1
                      (stored now1) queueData wins) as Hrot
    end.
    simpl in Hrot. rewrite lookup_insert_eq in Hrot.
    rewrite Hk, Hl in Hrot. specialize (Hrot eq_refl Hq Hwins).
    split; [exact Hrot|]. simpl. by rewrite lookup_insert_eq.
Qed.

Lemma tied_score_declares_team2_sample :
  games Sample.store !! "game-1" = Some Sample.game1 ∧
  status Sample.game1 = in_progress ∧
  let stored (now : Z) :=
    mkGame "court-1" "queue-1" "facility-1" ["A"; "B"; "C"; "D"]
      (mkTeams ["A"; "B"] ["C"; "D"]) 1000
      (Some now) (Some (now - 1000)) (Some (mkScore 9 9)) (Some team2) completed in
  let rotation :=
    determineRotation (mkGameResult ["C"; "D"] ["A"; "B"] 0) Sample.queue2 in
  (∃ db2,
     processGameEnd "game-1" (mkGameEndInput 9 9) [] 1730 Sample.store =
       (inr (mkGameEndResult "game-1" 730 rotation 0), db2) ∧
     games db2 !! "game-1" = Some (stored 1730) ∧
     queues db2 !! "queue-1" = Some (mkQueueDoc "court-1" (Some []) 1730)) ∧
  ∃ db1 db3,
    endGame "game-1" (mkScore 9 9) 1720 14 3 Sample.store =
      (inr (mkEndedGame "game-1" 720 (mkScore 9 9) team2 ["C"; "D"] ["A"; "B"]), db1) ∧
    games db1 !! "game-1" = Some (stored 1720) ∧
    processGameEnd "game-1" (mkGameEndInput 9 9) [] 1721 db1 =
      (inr (mkGameEndResult "game-1" 721 rotation 0), db3) ∧
    games db3 !! "game-1" = Some (stored 1721).
Proof.
  split; [reflexivity|]. split; [reflexivity|].
  apply (tied_score_declares_team2 "game-1" 9 9 1720 14 3 1730 1721 [] Sample.store
           Sample.game1 (mkCourtDoc "facility-1" in_game (Some "game-1"))
           (mkQueueDoc "court-1" (Some Sample.queue2) 0) 0);
    reflexivity.
Defined.

(** C3: the end-game request with the tied score 9-9 on a game in progress.
    The mobile screen refuses the score ("Game cannot end in a tie") before
    it calls the endpoint; [endGame] itself accepts it: it returns, with
    team2 as the winner, and the game is stored as completed with its end
    time and duration. *)
Lemma endGame_accepts_tied_score_9_9 :
  status <$> games Sample.store !! "game-1" = Some in_progress ∧
  OnCourtScreen.handleEndGame 9 9 =
    OnCourtScreen.InvalidScore "Game cannot end in a tie" ∧
  fst (endGame "game-1" (mkScore 9 9) 1720 14 3 Sample.store) =
    inr (mkEndedGame "game-1" 720 (mkScore 9 9) team2 ["C"; "D"] ["A"; "B"]) ∧
  games (snd (endGame "game-1" (mkScore 9 9) 1720 14 3 Sample.store)) !! "game-1" =
    Some (mkGame "court-1" "queue-1" "facility-1" ["A"; "B"; "C"; "D"]
            (mkTeams ["A"; "B"] ["C"; "D"]) 1000
            (Some 1720) (Some 720) (Some (mkScore 9 9)) (Some team2) completed).
Proof. repeat split; reflexivity. Qed.

End TiedScores.

Section CourtBusy.

Import GameService.

Lemma createGame_run (cid qid : string) (plrs t1 t2 : list string) (fid newId : string)
    (now : Z) (db : Store) (court : CourtDoc) :
  length plrs = 4%nat → length t1 = 2%nat → length t2 = 2%nat →
  courts db !! cid = Some court →
  let gameData :=
    mkGame cid qid fid plrs (mkTeams t1 t2) now None None None None in_progress in
  createGame cid qid plrs (mkTeamsInput (Some t1) (Some t2)) fid newId now db =
    (inr (mkCreatedGame newId gameData),
     mkStore (queues db)
             (<[newId := gameData]> (games db))
             (<[cid := mkCourtDoc (court_facilityId court) in_game (Some newId)]> (courts db))
             (gameMetrics db)).
Proof.
  intros Hp H1 H2 Hc. unfold createGame. db_unfold.
  rewrite Hp, H1, H2. simpl. by rewrite Hc.
Qed.





End CourtBusy.

(** ** Weighted average *)

Section WeightedAverage.

Import PredictionService.

Local Open Scope R_scope.

Lemma big_sum_ext (f g : nat → R) (n : nat) :
  (∀ i, (i < n)%nat → f i = g i) → big_sum f n = big_sum g n.
Proof.
  induction n as [|n IH]; intros Hfg; simpl; [done|].
  rewrite IH by (intros; apply Hfg; lia).
  rewrite Hfg by lia. done.
Qed.

Lemma fold_left_Rplus_seq (f : nat → R) (n : nat) (init : R) :
  fold_left Rplus (f <$> seq 0 n) init = init + big_sum f n.
Proof.
  induction n as [|n IH].
  - simpl. lra.
  - rewrite seq_S, fmap_app, fold_left_app, IH. simpl. lra.
Qed.

Lemma weightsOf_seq (values : list R) :
  weightsOf values = weight <$> seq 0 (length values).
Proof. unfold weightsOf. apply (imap_seq_0 values weight). Qed.

Lemma nth_weightsOf (values : list R) (i : nat) :
  (i < length values)%nat → nth i (weightsOf values) 0 = weight i.
Proof.
  intros Hi. rewrite weightsOf_seq, nth_lookup, list_lookup_fmap.
  by rewrite lookup_seq_lt.
Qed.

Lemma reducei_sum (ws l : list R) :
  reducei (λ sum val i, sum + val * nth i ws 0) l 0
  = big_sum (λ i, nth i l 0 * nth i ws 0) (length l).
Proof.
  unfold reducei. induction l as [|x l IH] using rev_ind; [done|].
  rewrite imap_app, fold_left_app, IH. simpl.
  rewrite length_app, Nat.add_0_r. simpl.
  rewrite Nat.add_1_r. simpl.
  rewrite nth_middle. f_equal.
  apply big_sum_ext. intros i Hi. by rewrite app_nth1.
Qed.

(** On a non-empty sample list the code's map and reduce compute the
    quotient of the two sums. *)
Lemma calculateWeightedAverage_as_sums (values : list R) :
  (0 < length values)%nat →
  calculateWeightedAverage values = weighted_average_formula values.
Proof.
  intros Hlen. destruct values as [|v values]; [simpl in Hlen; lia|].
  unfold calculateWeightedAverage, weighted_average_formula.
  rewrite reducei_sum.
  unfold Rdiv. f_equal.
  - apply big_sum_ext. intros i Hi. by rewrite nth_weightsOf.
  - f_equal. by rewrite weightsOf_seq, fold_left_Rplus_seq, Rplus_0_l.
Qed.

(** The weighted average of equal samples is that sample. *)
Lemma big_sum_weight_pos (n : nat) : (0 < n)%nat → 0 < big_sum weight n.
Proof.
  induction n as [|n IH]; [lia|]. intros _. simpl.
  pose proof (exp_pos (- 0.05 * INR n)) as Hpos. fold (weight n) in Hpos.
  destruct n as [|n]; [simpl; lra|].
  assert (0 < big_sum weight (S n)) by (apply IH; lia). lra.
Qed.

Lemma big_sum_scale (c : R) (f : nat → R) (n : nat) :
  big_sum (λ i, c * f i) n = c * big_sum f n.
Proof. induction n as [|n IH]; simpl; [lra|]. rewrite IH. lra. Qed.

Lemma calculateWeightedAverage_constant (c : R) (n : nat) :
  (0 < n)%nat → calculateWeightedAverage (replicate n c) = c.
Proof.
  intros Hn. rewrite calculateWeightedAverage_as_sums by (rewrite length_replicate; lia).
  unfold weighted_average_formula. rewrite length_replicate.
  rewrite (big_sum_ext _ (λ i, c * weight i)).
  - rewrite big_sum_scale. pose proof (big_sum_weight_pos n Hn).
    field. lra.
  - intros i Hi. f_equal. rewrite nth_lookup.
    by rewrite lookup_replicate_2.
Qed.

End WeightedAverage.

Section WeightedAverageExample.

Import PredictionService.

Local Open Scope R_scope.

(** Bounds on [exp] at the two weights, from [1 + x <= exp x] at
    [x = 1/320] and [x = - 1/320] and five squarings. *)
Lemma exp_square_bounds (x l u l' u' : R) :
  0 <= l → l <= exp x <= u → l' <= l * l → u * u <= u' →
  l' <= exp (2 * x) <= u'.
Proof.
  intros Hl [Hlo Hhi] Hl' Hu'.
  replace (2 * x) with (x + x) by lra. rewrite exp_plus.
  split; nra.
Qed.

Lemma exp_bounds_320 : 0.996875 <= exp (- (1 / 320)) <= 0.996884736.
Proof.
  split.
  - pose proof (exp_ineq1_le (- (1 / 320))). lra.
  - rewrite exp_Ropp.
    pose proof (exp_ineq1_le (1 / 320)) as Hle.
    pose proof (exp_pos (1 / 320)) as Hpos.
    apply Rmult_le_reg_r with (exp (1 / 320)); [done|].
    rewrite Rinv_l by lra. lra.
Qed.

Lemma weight_1_bounds : 0.951154949 <= weight 1 <= 0.951303605.
Proof.
  pose proof exp_bounds_320 as H0.
  pose proof (exp_square_bounds (- (1 / 320)) 0.996875 0.996884736
                0.993759765 0.993779177 ltac:(lra) H0 ltac:(lra) ltac:(lra)) as H1.
  pose proof (exp_square_bounds _ 0.993759765 0.993779177
                0.98755847 0.987597053 ltac:(lra) H1 ltac:(lra) ltac:(lra)) as H2.
  pose proof (exp_square_bounds _ 0.98755847 0.987597053
                0.975271731 0.97534794 ltac:(lra) H2 ltac:(lra) ltac:(lra)) as H3.
  pose proof (exp_square_bounds _ 0.975271731 0.97534794
                0.951154949 0.951303605 ltac:(lra) H3 ltac:(lra) ltac:(lra)) as H4.
  unfold weight. simpl INR.
  replace (- 0.05 * 1) with (2 * (2 * (2 * (2 * - (1 / 320))))) by lra.
  exact H4.
Qed.

Lemma weight_2_bounds : 0.904695737 <= weight 2 <= 0.904978549.
Proof.
  pose proof weight_1_bounds as H4. unfold weight in H4. simpl INR in H4.
  pose proof (exp_square_bounds _ 0.951154949 0.951303605
                0.904695737 0.904978549 ltac:(lra) H4 ltac:(lra) ltac:(lra)) as H5.
  unfold weight. simpl INR.
  replace (- 0.05 * (1 + 1)) with (2 * (- 0.05 * 1)) by lra.
  exact H5.
Qed.

Lemma weight_0 : weight 0 = 1.
Proof. unfold weight. simpl INR. rewrite Rmult_0_r. apply exp_0. Qed.

Lemma calculateWeightedAverage_3 (a b c : R) :
  calculateWeightedAverage [a; b; c]
  = (a * 1 + b * weight 1 + c * weight 2) / (1 + weight 1 + weight 2).
Proof.
  rewrite calculateWeightedAverage_as_sums by (simpl; lia).
  unfold weighted_average_formula. cbn [length big_sum nth].
  rewrite weight_0. f_equal; lra.
Qed.

Lemma calculateWeightedAverage_10_20_30 :
  19.666 < calculateWeightedAverage [10; 20; 30] < 19.668.
Proof.
  rewrite calculateWeightedAverage_3.
  pose proof weight_1_bounds as H1. pose proof weight_2_bounds as H2.
  set (w1 := weight 1) in *. set (w2 := weight 2) in *.
  assert (0 < 1 + w1 + w2) as Hpos by lra.
  split.
  - apply Rmult_lt_reg_r with (1 + w1 + w2); [done|].
    unfold Rdiv. rewrite Rmult_assoc, Rinv_l by lra. lra.
  - apply Rmult_lt_reg_r with (1 + w1 + w2); [done|].
    unfold Rdiv. rewrite Rmult_assoc, Rinv_l by lra. lra.
Qed.

(** C8, generally and on the example: on a non-empty sample list, most
    recent first, [calculateWeightedAverage] returns the sum of
    [v[i] * w[i]] divided by the sum of [w[i]], with [w[i] = exp(-0.05 * i)].
    For the samples 10, 20, 30 that is
    [(10 + 20 e^-0.05 + 30 e^-0.10) / (1 + e^-0.05 + e^-0.10)], which lies
    between 19.666 and 19.668: 19.67 to two decimals. *)
Theorem calculateWeightedAverage_spec (values : list R) :
  (0 < length values)%nat →
  calculateWeightedAverage values = weighted_average_formula values ∧
  calculateWeightedAverage [10; 20; 30]
    = (10 * 1 + 20 * exp (- 0.05) + 30 * exp (- 0.10))
      / (1 + exp (- 0.05) + exp (- 0.10)) ∧
  Rabs (calculateWeightedAverage [10; 20; 30] - 19.667) < 0.001.
Proof.
  intros Hlen. split; [by apply calculateWeightedAverage_as_sums|]. split.
  - rewrite calculateWeightedAverage_3. unfold weight. simpl INR.
    replace (- 0.05 * 1) with (- 0.05) by lra.
    replace (- 0.05 * (1 + 1)) with (- 0.10) by lra. done.
  - pose proof calculateWeightedAverage_10_20_30.
    apply Rabs_def1; lra.
Qed.

Lemma calculateWeightedAverage_spec_10_20_30 :
  (0 < length [10; 20; 30])%nat ∧
  calculateWeightedAverage [10; 20; 30] = weighted_average_formula [10; 20; 30] ∧
  Rabs (calculateWeightedAverage [10; 20; 30] - 19.667) < 0.001.
Proof.
  split; [simpl; lia|].
  destruct (calculateWeightedAverage_spec [10; 20; 30]) as (Hsum & _ & Hnear);
    [simpl; lia|].
  split; [exact Hsum | exact Hnear].
Defined.

(** C8, counterexample: the weighted average of the samples 10, 20, 30 is
    not 19.3, not even within 0.3 of it; and the quotient written with the
    rounded weights 0.951 and 0.905 is itself above 19.66. *)
Lemma calculateWeightedAverage_10_20_30_not_19_3 :
  ¬ (Rabs (calculateWeightedAverage [10; 20; 30] - 19.3) < 0.3) ∧
  19.66 < (10 * 1 + 20 * 0.951 + 30 * 0.905) / (1 + 0.951 + 0.905).
Proof.
  split.
  - pose proof calculateWeightedAverage_10_20_30 as [Hlo _].
    intros Habs. apply Rabs_def2 in Habs. lra.
  - lra.
Qed.

End WeightedAverageExample.

(** ** Rounding of the wait estimate *)

Section EstimateRounding.

Lemma round_nearest_5 (estimate : Q) :
  (Qabs (inject_Z (5 * GameDurationService.round (estimate / 5)) - estimate) <= 5 # 2)%Q.
Proof.
  unfold GameDurationService.round.
  pose proof (Qfloor_le (estimate / 5 + (1 # 2))) as Hlo.
  pose proof (Qlt_floor (estimate / 5 + (1 # 2))) as Hhi.
  rewrite inject_Z_plus in Hhi. rewrite inject_Z_mult.
  apply Qabs_Qle_condition.
  change (inject_Z 5) with 5%Q. change (inject_Z 1) with 1%Q in Hhi.
  generalize dependent (inject_Z (Qfloor (estimate / 5 + (1 # 2)))).
  intros q Hlo Hhi.
  unfold Qdiv in *. change (/ 5)%Q with (1 # 5)%Q in *.
  split; Lqa.lra.
Qed.

(** C9, as the code has it: the mobile application's [predictWaitTime]
    returns 0 for a position that is not positive and otherwise the raw
    estimate rounded to the nearest multiple of 5 minutes, or 0 if that is
    negative.  Its result is always a non-negative multiple of 5. *)
Theorem client_predictWaitTime_rounds_to_5 (position : Z) (avgDurationMinutes activeCourts : Q) :
  let estimate :=
    GameDurationService.estimatedMinutes position avgDurationMinutes activeCourts in
  let result :=
    GameDurationService.predictWaitTime position avgDurationMinutes activeCourts in
  ∃ k : Z,
    (Qabs (inject_Z (5 * k) - estimate) <= 5 # 2)%Q ∧
    result = (if position <=? 0 then 0 else Z.max 0 (5 * k)) ∧
    (5 | result) ∧
    0 ≤ result.
Proof.
  intros estimate result.
  exists (GameDurationService.round (estimate / 5)).
  split; [apply round_nearest_5|].
  subst result. unfold GameDurationService.predictWaitTime. fold estimate.
  destruct (position <=? 0).
  - split; [done|]. split; [apply Z.divide_0_r | lia].
  - rewrite (Z.mul_comm _ 5). split; [done|]. split; [|lia].
    destruct (Z.max_spec 0 (5 * GameDurationService.round (estimate / 5)))
      as [[_ ->]|[_ ->]].
    + apply Z.divide_factor_l.
    + apply Z.divide_0_r.
Qed.

Example client_predictWaitTime_examples :
  GameDurationService.predictWaitTime 1 12 1 = 10 ∧
  GameDurationService.predictWaitTime 5 15 2 = 20 ∧
  GameDurationService.predictWaitTime 0 15 1 = 0.
Proof. by vm_compute. Qed.

Import PredictionService.

Lemma round_IZR (z : Z) : round (IZR z) = z.
Proof.
  unfold round. symmetry. apply Int_part_spec. split; lra.
Qed.

Lemma getAverageGameDuration_reads720 :
  getAverageGameDuration Sample.reads720 = 720%R.
Proof.
  unfold getAverageGameDuration, Sample.reads720. cbn [contextualGames].
  rewrite length_replicate.
  change (MIN_GAMES_FOR_PREDICTION <=? 10)%nat with true. cbv iota.
  rewrite fmap_replicate. apply calculateWeightedAverage_constant. lia.
Qed.

(** C9, counterexample: ten recorded games of 720 seconds each give an
    average of 720 seconds, and the server's [predictWaitTime] then answers
    12 minutes for position 1, which is not a multiple of 5. *)
Lemma server_predictWaitTime_12_minutes :
  ∃ prediction,
    fst (predictWaitTime "queue-1" 1 Sample.reads720 Sample.store) = inr prediction ∧
    estimatedWaitMinutes prediction = 12 ∧
    ¬ (5 | estimatedWaitMinutes prediction).
Proof.
  unfold predictWaitTime. db_unfold.
  change (queues Sample.store !! "queue-1")
    with (Some (mkQueueDoc "court-1" (Some Sample.queue2) 0)).
  cbv iota. cbn [fst].
  eexists. split; [reflexivity|]. cbn [estimatedWaitMinutes].
  rewrite getAverageGameDuration_reads720.
  change (Qceiling (inject_Z 1 / 2)) with 1.
  replace (1 * 720 / 60)%R with (IZR 12) by lra.
  rewrite round_IZR. split; [done|].
  intros [q Hq]. lia.
Qed.

End EstimateRounding.

(** * Further properties *)

(** ** Leaving a queue *)

Section LeaveQueue.

Import QueueService.

Lemma findIndex_first {A} (p : A → bool) (before : list A) (x : A) (after : list A) :
  Forall (λ y, p y = false) before → p x = true →
  findIndex p (before ++ x :: after) = Some (length before).
Proof.
  induction 1 as [|y before Hy _ IH]; intros Hx; simpl.
  - by rewrite Hx.
  - by rewrite Hy, IH.
Qed.

Lemma findIndex_none {A} (p : A → bool) (l : list A) :
  Forall (λ y, p y = false) l → findIndex p l = None.
Proof.
  induction 1 as [|y l Hy _ IH]; simpl; [done|]. by rewrite Hy, IH.
Qed.

Lemma playerId_eqb_false (pid : string) (l : list QueueEntry) :
  pid ∉ playerId <$> l → Forall (λ p, String.eqb (playerId p) pid = false) l.
Proof.
  intros Hnotin. apply Forall_forall. intros p Hp.
  apply String.eqb_neq. intros Heq. apply Hnotin.
  rewrite <- Heq. by apply list_elem_of_fmap_2.
Qed.

(** X1: on an existing queue, [leaveQueue] with a player id that is not in
    the queue throws "Player not in queue" and leaves the store unchanged.
    Otherwise it removes the first entry of that player, keeps every other
    entry in order, renumbers them from 1, and the queue is one shorter. *)
Theorem leaveQueue_removes_first_entry (qid pid : string) (now : Z) (db : Store)
    (queueData : QueueDoc) :
  queues db !! qid = Some queueData →
  if decide (pid ∈ playerId <$> playersOf queueData)
  then
    ∃ before x after,
      playersOf queueData = before ++ x :: after ∧
      playerId x = pid ∧
      (pid ∉ playerId <$> before) ∧
      leaveQueue qid pid now db =
        (inr (mkLeaveResult true qid),
         set_queues
           (insert qid
              (mkQueueDoc (queue_courtId queueData)
                 (Some (renumber (before ++ after))) now))
           db) ∧
      length (renumber (before ++ after)) = (length (playersOf queueData) - 1)%nat ∧
      position <$> renumber (before ++ after)
        = seq 1 (length (playersOf queueData) - 1)
  else leaveQueue qid pid now db = (inl PlayerNotInQueue, db).
Proof.
  intros Hq. rewrite leaveQueue_run, Hq. case_decide as Hin.
  - apply list_elem_of_split_l in Hin as (ids1 & ids2 & Hids & Hfresh).
    apply fmap_app_inv in Hids as (before & rest & -> & Hrest & Hl).
    symmetry in Hrest.
    apply fmap_cons_inv in Hrest as (x & after & Hx & -> & ->).
    exists before, x, after. rewrite Hl.
    rewrite (findIndex_first _ before x after).
    + rewrite delete_middle.
      assert (length (renumber (before ++ after))
                = (length (before ++ x :: after) - 1)%nat) as Hlen.
      { rewrite renumber_length, !length_app. simpl. lia. }
      rewrite renumber_positions, <- Hlen, renumber_length. done.
    + by apply playerId_eqb_false.
    + by apply String.eqb_eq.
  - rewrite findIndex_none; [done|]. by apply playerId_eqb_false.
Qed.

Lemma leaveQueue_removes_first_entry_sample :
  queues Sample.store !! "queue-1" = Some (mkQueueDoc "court-1" (Some Sample.queue2) 0) ∧
  ∃ before x after,
    Sample.queue2 = before ++ x :: after ∧
    playerId x = "F" ∧
    ("F" ∉ playerId <$> before) ∧
    leaveQueue "queue-1" "F" 7 Sample.store =
      (inr (mkLeaveResult true "queue-1"),
       set_queues
         (insert "queue-1"
            (mkQueueDoc "court-1" (Some (renumber (before ++ after))) 7))
         Sample.store) ∧
    length (renumber (before ++ after)) = 1%nat ∧
    position <$> renumber (before ++ after) = [1%nat].
Proof.
  split; [reflexivity|].
  apply (leaveQueue_removes_first_entry "queue-1" "F" 7 Sample.store
           (mkQueueDoc "court-1" (Some Sample.queue2) 0)).
  reflexivity.
Defined.

Example leaveQueue_absent_player :
  leaveQueue "queue-1" "Z" 7 Sample.store = (inl PlayerNotInQueue, Sample.store) ∧
  fst (leaveQueue "queue-9" "E" 7 Sample.store) = inl QueueNotFound.
Proof. split; reflexivity. Qed.

Lemma playersOf_mk (cid : string) (l : list QueueEntry) (t : Z) :
  playersOf (mkQueueDoc cid (Some l) t) = l.
Proof. reflexivity. Qed.

(** A list whose positions are already [1..n] is its own renumbering. *)
Lemma renumber_id (l : list QueueEntry) :
  position <$> l = seq 1 (length l) → renumber l = l.
Proof.
  intros Hpos. apply list_eq. intros i. unfold renumber.
  rewrite list_lookup_imap.
  destruct (l !! i) as [x|] eqn:Hx; [|done]. simpl. f_equal.
  assert ((position <$> l) !! i = Some (position x)) as Hpx
    by by rewrite list_lookup_fmap, Hx.
  rewrite Hpos in Hpx. apply lookup_seq in Hpx as [Hpx _].
  destruct x as [p j n b]. simpl in *. unfold set_position. simpl.
  f_equal. lia.
Qed.

(** X2: joining and then leaving, for a player who is not in the queue.
    The [joinQueue] throws (the write of the new entry is refused) and
    leaves the store as it was, so the player is still absent and the
    [leaveQueue] that follows throws "Player not in queue"; after both calls
    the store is the one there was. *)
Theorem joinQueue_then_leaveQueue_throw (qid pid : string) (now1 now2 : Z) (db : Store)
    (queueData : QueueDoc) :
  queues db !! qid = Some queueData →
  pid ∉ playerId <$> playersOf queueData →
  joinQueue qid pid now1 db = (inl ServerTimestampInArray, db) ∧
  leaveQueue qid pid now2 (snd (joinQueue qid pid now1 db)) = (inl PlayerNotInQueue, db).
Proof.
  intros Hq Hfresh.
  rewrite joinQueue_run, Hq, decide_False by done. split; [done|]. simpl.
  rewrite leaveQueue_run, Hq.
  by rewrite (findIndex_none _ _ (playerId_eqb_false _ _ Hfresh)).
Qed.

Lemma joinQueue_then_leaveQueue_throw_sample :
  queues Sample.store !! "queue-1" = Some (mkQueueDoc "court-1" (Some Sample.queue2) 0) ∧
  ("G" ∉ playerId <$> Sample.queue2) ∧
  joinQueue "queue-1" "G" 5 Sample.store = (inl ServerTimestampInArray, Sample.store) ∧
  leaveQueue "queue-1" "G" 6 (snd (joinQueue "queue-1" "G" 5 Sample.store))
    = (inl PlayerNotInQueue, Sample.store).
Proof.
  assert ("G" ∉ playerId <$> Sample.queue2) as Hfresh.
  { apply (bool_decide_unpack _). by vm_compute. }
  split; [reflexivity|]. split; [exact Hfresh|].
  apply (joinQueue_then_leaveQueue_throw "queue-1" "G" 5 6 Sample.store
           (mkQueueDoc "court-1" (Some Sample.queue2) 0)).
  - reflexivity.
  - exact Hfresh.
Defined.

End LeaveQueue.

(** ** The front of the queue: who is notified, who is dequeued *)

Section QueueFront.

Import QueueService QueueQueries NotificationService Triggers.

Lemma filter_ext_Forall {A} (P Q : A → Prop)
    `{!∀ x, Decision (P x)} `{!∀ x, Decision (Q x)} (l : list A) :
  Forall (λ x, P x ↔ Q x) l → filter P l = filter Q l.
Proof.
  induction 1 as [|x l Hx _ IH]; [done|].
  rewrite !filter_cons, IH.
  destruct Hx as [HPQ HQP].
  destruct (decide (P x)), (decide (Q x)); [done | exfalso; auto .. | done].
Qed.

Lemma filter_none_Forall {A} (P : A → Prop) `{!∀ x, Decision (P x)} (l : list A) :
  Forall (λ x, ¬ P x) l → filter P l = [].
Proof.
  induction 1 as [|x l Hx _ IH]; [done|]. by rewrite filter_cons_False.
Qed.

Lemma filter_all_Forall {A} (P : A → Prop) `{!∀ x, Decision (P x)} (l : list A) :
  Forall P l → filter P l = l.
Proof.
  induction 1 as [|x l Hx _ IH]; [done|]. by rewrite filter_cons_True, IH.
Qed.

Lemma position_lookup (l : list QueueEntry) (i : nat) (x : QueueEntry) :
  position <$> l = seq 1 (length l) → l !! i = Some x → position x = S i.
Proof.
  intros Hpos Hx.
  assert ((position <$> l) !! i = Some (position x)) as Hpx
    by by rewrite list_lookup_fmap, Hx.
  rewrite Hpos in Hpx. by apply lookup_seq in Hpx as [-> _].
Qed.

Lemma positions_take (l : list QueueEntry) (k : nat) :
  position <$> l = seq 1 (length l) →
  Forall (λ p, (position p ≤ k)%nat) (take k l).
Proof.
  intros Hpos. apply Forall_lookup. intros i x Hx.
  apply lookup_take_Some in Hx as [Hx Hi].
  rewrite (position_lookup l i x Hpos Hx). lia.
Qed.

Lemma positions_drop (l : list QueueEntry) (k : nat) :
  position <$> l = seq 1 (length l) →
  Forall (λ p, (k < position p)%nat) (drop k l).
Proof.
  intros Hpos. apply Forall_lookup. intros i x Hx.
  rewrite lookup_drop in Hx.
  rewrite (position_lookup l _ x Hpos Hx). lia.
Qed.

(** With dense positions, "position at most 4 and not notified" selects
    among the first four entries, the first two as NEXT_UP. *)
Lemma toNotify_front (l : list QueueEntry) :
  position <$> l = seq 1 (length l) →
  toNotify l =
    ((λ p, mkPlayerToNotify p NEXT_UP)
       <$> filter (λ p, notified p = false) (take 2 l))
    ++ ((λ p, mkPlayerToNotify p APPROACHING)
          <$> filter (λ p, notified p = false) (take 2 (drop 2 l))).
Proof.
  intros Hpos. unfold toNotify.
  rewrite <- (take_drop 2 l) at 1.
  rewrite <- (take_drop 2 (drop 2 l)) at 1.
  rewrite !filter_app, !fmap_app.
  assert (Forall (λ p, (position p ≤ 2)%nat) (take 2 l)) as H2
    by by apply positions_take.
  assert (Forall (λ p, (2 < position p ≤ 4)%nat) (take 2 (drop 2 l))) as H34.
  { apply Forall_lookup. intros i x Hx.
    apply lookup_take_Some in Hx as [Hx Hi]. rewrite lookup_drop in Hx.
    rewrite (position_lookup l _ x Hpos Hx). lia. }
  assert (Forall (λ p, (4 < position p)%nat) (drop 2 (drop 2 l))) as H5.
  { rewrite drop_drop. by apply (positions_drop l 4). }
  rewrite (filter_none_Forall _ (drop 2 (drop 2 l))).
  2: { eapply Forall_impl; [exact H5|]. simpl. intros p Hp [Hle _]. lia. }
  rewrite fmap_nil, app_nil_r. f_equal.
  - rewrite (filter_ext_Forall _ (λ p, notified p = false) (take 2 l)).
    2: { eapply Forall_impl; [exact H2|]. simpl. intros p Hp.
         split; [by intros [_ ?] | intros ?; split; [lia|done]]. }
    apply Forall_fmap_ext_1.
    apply Forall_forall. intros p Hp%list_elem_of_filter.
    destruct Hp as [_ Hp]. rewrite Forall_forall in H2.
    specialize (H2 p Hp). simpl.
    destruct (Nat.leb_spec (position p) 2); [done | lia].
  - rewrite (filter_ext_Forall _ (λ p, notified p = false) (take 2 (drop 2 l))).
    2: { eapply Forall_impl; [exact H34|]. simpl. intros p Hp.
         split; [by intros [_ ?] | intros ?; split; [lia|done]]. }
    apply Forall_fmap_ext_1.
    apply Forall_forall. intros p Hp%list_elem_of_filter.
    destruct Hp as [_ Hp]. rewrite Forall_forall in H34.
    specialize (H34 p Hp). simpl.
    destruct (Nat.leb_spec (position p) 2); [lia | done].
Qed.

(** X3: on a queue that satisfies the invariant, [getPlayersToNotify]
    returns the entries among the first four that are not yet notified, in
    queue order: those among the first two as NEXT_UP, those in third and
    fourth place as APPROACHING.  It returns at most four players and never
    writes. *)
Theorem getPlayersToNotify_front (qid : string) (db : Store) (queueData : QueueDoc) :
  queues db !! qid = Some queueData →
  queue_inv (playersOf queueData) →
  let players := playersOf queueData in
  getPlayersToNotify qid db =
    (inr (((λ p, mkPlayerToNotify p NEXT_UP)
             <$> filter (λ p, notified p = false) (take 2 players))
          ++ ((λ p, mkPlayerToNotify p APPROACHING)
                <$> filter (λ p, notified p = false) (take 2 (drop 2 players)))),
     db) ∧
  (length (toNotify players) ≤ 4)%nat.
Proof.
  intros Hq [Hpos _] players. unfold getPlayersToNotify. db_unfold. rewrite Hq.
  fold players. rewrite (toNotify_front players Hpos). split; [done|].
  rewrite length_app, !length_fmap.
  pose proof (length_filter (λ p, notified p = false) (take 2 players)).
  pose proof (length_filter (λ p, notified p = false) (take 2 (drop 2 players))).
  pose proof (firstn_le_length 2 players).
  pose proof (firstn_le_length 2 (drop 2 players)).
  lia.
Qed.

End QueueFront.

Section QueueFrontUses.

Import QueueService QueueQueries NotificationService Triggers.

Lemma queue_inv_queue2 : queue_inv Sample.queue2.
Proof.
  split; [reflexivity|]. apply (bool_decide_unpack _). by vm_compute.
Defined.

Lemma getPlayersToNotify_front_sample :
  queues Sample.store !! "queue-1" = Some (mkQueueDoc "court-1" (Some Sample.queue2) 0) ∧
  queue_inv Sample.queue2 ∧
  getPlayersToNotify "queue-1" Sample.store =
    (inr [mkPlayerToNotify (Sample.entry "E" 1) NEXT_UP;
          mkPlayerToNotify (Sample.entry "F" 2) NEXT_UP],
     Sample.store).
Proof.
  split; [reflexivity|]. split; [exact queue_inv_queue2|].
  apply (getPlayersToNotify_front "queue-1" Sample.store
           (mkQueueDoc "court-1" (Some Sample.queue2) 0) eq_refl queue_inv_queue2).
Defined.

(** With unique player ids, dropping the entries whose id is among the
    first [k] ids drops exactly the first [k] entries. *)
Lemma filter_front_ids (k : nat) (l : list QueueEntry) :
  NoDup (playerId <$> l) →
  filter (λ p, playerId p ∉ playerId <$> take k l) l = drop k l.
Proof.
  intros Hnodup.
  trans (filter (λ p, playerId p ∉ playerId <$> take k l) (take k l ++ drop k l));
    [by rewrite take_drop|].
  rewrite filter_app.
  rewrite <- (take_drop k l), fmap_app in Hnodup.
  apply NoDup_app in Hnodup as (_ & Hdisj & _).
  rewrite filter_none_Forall, filter_all_Forall; [done|..].
  - apply Forall_forall. intros p Hp Hin.
    apply (Hdisj (playerId p)); [done|]. by apply list_elem_of_fmap_2.
  - apply Forall_forall. intros p Hp Hnotin. apply Hnotin.
    by apply list_elem_of_fmap_2.
Qed.

(** X4: when the player ids of the queue are unique, a successful
    [processGameEnd] takes exactly the first [k] players out of the queue,
    [k] being 4 for a FULL and 2 for a PARTIAL rotation: [nextUp] is the ids
    of the first [k] entries, the stored queue is the rest, renumbered from
    1, and [updatedQueueLength] is the old length minus [k] (0 if the queue
    was shorter). *)
Theorem processGameEnd_dequeues_front (gid : string) (result : GameEndInput)
    (recentGames : list Game) (now : Z) (db : Store)
    (gameData : Game) (queueData : QueueDoc) (wins : Z) :
  games db !! gid = Some gameData →
  queues db !! queueId gameData = Some queueData →
  countConsecutiveWins (team (teams gameData) (winningTeamKey result))
    (take (Z.to_nat MAX_CONSECUTIVE_WINS) recentGames) 0 = inr wins →
  NoDup (playerId <$> playersOf queueData) →
  ∃ ended db',
    processGameEnd gid result recentGames now db = (inr ended, db') ∧
    let k := match rotationType (end_rotation ended) with
             | FULL => 4%nat
             | PARTIAL => 2%nat
             end in
    nextUp (end_rotation ended) = playerId <$> take k (playersOf queueData) ∧
    playersOf <$> queues db' !! queueId gameData
      = Some (renumber (drop k (playersOf queueData))) ∧
    end_updatedQueueLength ended = (length (playersOf queueData) - k)%nat.
Proof.
  intros Hg Hq Hwins Hnodup.
  eexists _, _. split; [by apply processGameEnd_run|].
  simpl. rewrite lookup_insert_eq. simpl. rewrite playersOf_mk.
  unfold removeNextUp, determineRotation.
  destruct (_ || _); simpl;
    rewrite filter_front_ids by done;
    by rewrite renumber_length, length_drop.
Qed.

Lemma processGameEnd_dequeues_front_sample :
  games Sample.store !! "game-1" = Some Sample.game1 ∧
  NoDup (playerId <$> Sample.queue2) ∧
  ∃ ended db',
    processGameEnd "game-1" (mkGameEndInput 11 5) [] 1720 Sample.store
      = (inr ended, db') ∧
    nextUp (end_rotation ended) = ["E"; "F"] ∧
    playersOf <$> queues db' !! "queue-1" = Some [] ∧
    end_updatedQueueLength ended = 0%nat.
Proof.
  split; [reflexivity|]. split; [apply queue_inv_queue2|].
  destruct (processGameEnd_dequeues_front "game-1" (mkGameEndInput 11 5) [] 1720
              Sample.store Sample.game1 (mkQueueDoc "court-1" (Some Sample.queue2) 0) 0
              eq_refl eq_refl eq_refl (proj2 queue_inv_queue2))
    as (ended & db' & Hrun & Hprops).
  exists ended, db'. split; [exact Hrun|].
  injection Hrun as <- <-. exact Hprops.
Defined.

(** The loop of [getConsecutiveWins] counts up from its start value, at most
    once per document, and the documents it counted were all won by the
    players. *)
Lemma countConsecutiveWins_bounds (playerIds : list string) (docs : list Game) (n w : Z) :
  countConsecutiveWins playerIds docs n = inr w →
  n ≤ w ≤ n + Z.of_nat (length docs) ∧
  Forall (λ game, sameWinners playerIds game = inr true) (take (Z.to_nat (w - n)) docs).
Proof.
  revert n. induction docs as [|game docs IH]; intros n Hrun; simpl in *.
  - injection Hrun as <-. split; [lia|]. by rewrite take_nil.
  - destruct (sameWinners playerIds game) as [e|[]] eqn:Hsame; [done|..].
    + apply IH in Hrun as [Hle Hall]. split; [lia|].
      replace (Z.to_nat (w - n)) with (S (Z.to_nat (w - (n + 1)))) by lia.
      simpl. by constructor.
    + injection Hrun as <-. split; [lia|].
      by rewrite Z.sub_diag.
Qed.

(** X5: whenever [getConsecutiveWins] returns, its count [w] is between 0
    and [MAX_CONSECUTIVE_WINS] (3) and at most the number of recent games,
    the [w] most recent games were all won by a team that contains every
    given player, and the store is untouched. *)
Theorem getConsecutiveWins_bounds (playerIds : list string) (recentGames : list Game)
    (db db' : Store) (w : Z) :
  getConsecutiveWins playerIds recentGames db = (inr w, db') →
  db' = db ∧
  0 ≤ w ≤ MAX_CONSECUTIVE_WINS ∧
  w ≤ Z.of_nat (length recentGames) ∧
  Forall (λ game, sameWinners playerIds game = inr true)
         (take (Z.to_nat w) recentGames).
Proof.
  unfold getConsecutiveWins. intros Hrun. injection Hrun as Hcount <-.
  apply countConsecutiveWins_bounds in Hcount as [Hle Hall].
  rewrite length_take in Hle. rewrite Z.sub_0_r in Hall.
  unfold MAX_CONSECUTIVE_WINS in *.
  split; [done|]. split; [lia|]. split; [lia|].
  rewrite take_take in Hall.
  replace (Z.to_nat w `min` Z.to_nat 3)%nat with (Z.to_nat w) in Hall by lia.
  done.
Qed.

Lemma getConsecutiveWins_bounds_sample :
  getConsecutiveWins ["C"; "D"] LedgerSample.recent Sample.store
    = (inr 2, Sample.store) ∧
  0 ≤ 2 ≤ MAX_CONSECUTIVE_WINS ∧
  2 ≤ Z.of_nat (length LedgerSample.recent) ∧
  Forall (λ game, sameWinners ["C"; "D"] game = inr true)
         (take (Z.to_nat 2) LedgerSample.recent).
Proof.
  split; [reflexivity|].
  apply (getConsecutiveWins_bounds ["C"; "D"] LedgerSample.recent
           Sample.store Sample.store 2).
  reflexivity.
Defined.

Example getConsecutiveWins_samples :
  fst (getConsecutiveWins ["A"; "B"] LedgerSample.recent Sample.store) = inr 0 ∧
  fst (getConsecutiveWins ["D"] LedgerSample.recent Sample.store) = inr 2 ∧
  fst (getConsecutiveWins ["C"; "D"]
         [LedgerSample.wonBy team2 900; Sample.game1] Sample.store) = inl TypeError.
Proof. repeat split; reflexivity. Qed.

End QueueFrontUses.

Section Notifications.

Import QueueService QueueQueries NotificationService Triggers.

(** With a court name every [sendNotification] of the loop returns: the loop
    marks every entry and logs one notification per registered player. *)
Lemma notifyLoop_named (registered : gset string) (name : string) (i : nat)
    (players : list QueueEntry) (logs : NotificationLogs) :
  notifyLoop registered (Some name) i players logs =
    (inr (set_notified true <$> players),
     logs ++ filter (λ r, request_playerId r ∈ registered)
               (imap (λ j player,
                        mkNotificationRequest (playerId player)
                          (if (i + j <? 2)%nat then NEXT_UP else APPROACHING)
                          (Some name) (i + j + 1))
                     players)).
Proof.
  revert i logs. induction players as [|p players IH]; intros i logs; simpl.
  - by rewrite filter_nil, app_nil_r.
  - unfold sendNotification. simpl. rewrite Nat.add_0_r.
    assert (imap (λ j player,
                    mkNotificationRequest (playerId player)
                      (if (S i + j <? 2)%nat then NEXT_UP else APPROACHING)
                      (Some name) (S i + j + 1)) players =
            imap ((λ j player,
                    mkNotificationRequest (playerId player)
                      (if (i + j <? 2)%nat then NEXT_UP else APPROACHING)
                      (Some name) (i + j + 1)) ∘ S) players) as Himap.
    { apply imap_ext. intros j x _. simpl. by rewrite !Nat.add_succ_r. }
    case_decide as Hreg.
    + rewrite IH, Himap, filter_cons_True by done.
      by rewrite <- app_assoc.
    + rewrite IH, Himap, filter_cons_False by done. done.
Qed.

(** Without a court name the loop gets as far as the first registered
    player. *)
Lemma notifyLoop_unnamed (registered : gset string) (i : nat)
    (players : list QueueEntry) (logs : NotificationLogs) :
  notifyLoop registered None i players logs =
    if decide (Forall (λ p, playerId p ∉ registered) players)
    then (inr (set_notified true <$> players), logs)
    else (inl UndefinedFieldValue, logs).
Proof.
  revert i. induction players as [|p players IH]; intros i; [done|].
  cbn [notifyLoop]. unfold sendNotification. cbn [request_playerId request_court].
  destruct (decide (playerId p ∈ registered)) as [Hreg|Hreg].
  - rewrite decide_False; [done|]. by intros [? _]%Forall_cons.
  - rewrite IH. destruct (decide (Forall _ players)) as [Hall|Hall].
    + rewrite decide_True; [done|]. by apply Forall_cons.
    + rewrite decide_False; [done|]. by intros [_ ?]%Forall_cons.
Qed.

(** X6: [notifyNextPlayers] on a queue that satisfies the invariant, with a
    court that has a name: it returns, and it adds to [notificationLogs]
    one notification per entry among the first four whose player has a
    [players] document, in queue order and with the places 1, 2, ... of the
    entries, whether or not the entry was notified before; it marks all of
    the first four entries as notified, registered or not, and changes
    nothing else in the queue, so the invariant still holds; and
    [getPlayersToNotify] on the result finds nobody left to notify. *)
Theorem notifyNextPlayers_marks_front (registered : gset string) (qid : string)
    (info : CourtInfo) (name : string) (logs : NotificationLogs) (db : Store)
    (queueData : QueueDoc) :
  queues db !! qid = Some queueData →
  queue_inv (playersOf queueData) →
  info_name info = Some name →
  let players := playersOf queueData in
  let marked := (set_notified true <$> take 4 players) ++ drop 4 players in
  let requests :=
    imap (λ i player,
            mkNotificationRequest (playerId player)
              (if (i <? 2)%nat then NEXT_UP else APPROACHING) (Some name) (i + 1))
         (take 4 players) in
  ∃ db',
    notifyNextPlayers registered qid (Some info) logs db =
      (inr (), logs ++ filter (λ r, request_playerId r ∈ registered) requests, db') ∧
    request_playerId <$> requests = playerId <$> take 4 players ∧
    request_position <$> requests = seq 1 (4 `min` length players) ∧
    queues db' =
      <[qid := mkQueueDoc (queue_courtId queueData) (Some marked)
                 (queue_updatedAt queueData)]> (queues db) ∧
    queue_inv marked ∧
    getPlayersToNotify qid db' = (inr [], db').
Proof.
  intros Hq [Hpos Hnodup] Hname players marked requests.
  assert (position <$> marked = position <$> players) as Hpos'.
  { subst marked. rewrite fmap_app, <- list_fmap_compose.
    rewrite (list_fmap_ext (position ∘ set_notified true) position) by done.
    by rewrite <- fmap_app, take_drop. }
  assert (playerId <$> marked = playerId <$> players) as Hids'.
  { subst marked. rewrite fmap_app, <- list_fmap_compose.
    rewrite (list_fmap_ext (playerId ∘ set_notified true) playerId) by done.
    by rewrite <- fmap_app, take_drop. }
  assert (length marked = length players) as Hlen'.
  { by rewrite <- (length_fmap position), Hpos', length_fmap. }
  assert (notifyNextPlayers registered qid (Some info) logs db =
            (inr (), logs ++ filter (λ r, request_playerId r ∈ registered) requests,
             set_queues
               (insert qid (mkQueueDoc (queue_courtId queueData) (Some marked)
                              (queue_updatedAt queueData)))
               db)) as Hrun.
  { unfold notifyNextPlayers. rewrite Hq. fold players.
    pose proof (notifyLoop_named registered name 0 (take 4 players) logs) as Hloop.
    destruct (take 4 players) eqn:Htake; cbv beta iota zeta;
      change (Some info ≫= info_name) with (info_name info);
      rewrite Hname, Hloop; db_unfold; rewrite Hq; reflexivity. }
  eexists. split; [exact Hrun|].
  split.
  { subst requests. rewrite fmap_imap.
    rewrite (imap_ext _ (λ _, playerId)) by done.
    apply (imap_const playerId). }
  split.
  { subst requests. rewrite fmap_imap.
    rewrite (imap_ext _ (λ j _, S j)) by (intros; simpl; lia).
    by rewrite imap_seq_0, fmap_S_seq, length_take. }
  split; [done|].
  split.
  { split; [by rewrite Hpos', Hlen' | by rewrite Hids']. }
  unfold getPlayersToNotify. db_unfold. rewrite lookup_insert_eq.
  rewrite playersOf_mk. unfold toNotify.
  rewrite filter_none_Forall; [done|].
  subst marked. apply Forall_app. split.
  - apply Forall_forall. intros p (q & -> & _)%list_elem_of_fmap [_ Hn].
    discriminate.
  - eapply Forall_impl; [by apply (positions_drop players 4)|].
    simpl. intros p Hp [Hle _]. lia.
Qed.

Lemma notifyNextPlayers_marks_front_sample :
  queues Sample.store !! "queue-1" = Some (mkQueueDoc "court-1" (Some Sample.queue2) 0) ∧
  queue_inv Sample.queue2 ∧
  info_name (mkCourtInfo (Some "Court 1")) = Some "Court 1" ∧
  ∃ db',
    notifyNextPlayers {["F"]} "queue-1" (Some (mkCourtInfo (Some "Court 1"))) []
      Sample.store
      = (inr (), [mkNotificationRequest "F" NEXT_UP (Some "Court 1") 2], db') ∧
    playersOf <$> queues db' !! "queue-1" =
      Some [mkQueueEntry "E" 0 1 true; mkQueueEntry "F" 0 2 true] ∧
    getPlayersToNotify "queue-1" db' = (inr [], db').
Proof.
  split; [reflexivity|]. split; [exact queue_inv_queue2|]. split; [reflexivity|].
  destruct (notifyNextPlayers_marks_front {["F"]} "queue-1" (mkCourtInfo (Some "Court 1"))
              "Court 1" [] Sample.store (mkQueueDoc "court-1" (Some Sample.queue2) 0)
              eq_refl queue_inv_queue2 eq_refl)
    as (db' & Hrun & _ & _ & Hqueues & _ & Hnone).
  exists db'. split; [exact Hrun|]. split; [|exact Hnone].
  rewrite Hqueues. reflexivity.
Defined.

(** A court document without a name: the first notification of a
    registered player throws at the log write, nothing is logged and no
    entry is marked.  Without a court object the first round of the loop
    throws.  When nobody of the front is registered, or the queue document
    is missing, the call returns. *)
Example notifyNextPlayers_without_court :
  notifyNextPlayers {["F"]} "queue-1" (Some (mkCourtInfo None)) [] Sample.store
    = (inl UndefinedFieldValue, [], Sample.store) ∧
  notifyNextPlayers {["F"]} "queue-1" None [] Sample.store
    = (inl TypeError, [], Sample.store) ∧
  fst (notifyNextPlayers ∅ "queue-1" (Some (mkCourtInfo None)) [] Sample.store)
    = (inr (), []) ∧
  notifyNextPlayers {["F"]} "queue-9" None [] Sample.store = (inr (), [], Sample.store).
Proof. repeat split; reflexivity. Qed.

(** The entries of the updated queue the trigger sends a notification for
    that reaches the log write. *)
Lemma notifyImproved_named (registered beforePlayers : gset string) (name : string)
    (afterPlayers : list QueueEntry) (logs : NotificationLogs) :
  notifyImproved registered beforePlayers (Some name) afterPlayers logs =
    (inr (),
     logs ++
       ((λ player,
           mkNotificationRequest (playerId player)
             (if (position player <=? 2)%nat then NEXT_UP else APPROACHING)
             (Some name) (position player))
        <$> filter (λ player,
                      playerId player ∈ registered ∧
                      playerId player ∈ beforePlayers ∧
                      (position player ≤ 4)%nat ∧
                      notified player = false)
                   afterPlayers)).
Proof.
  revert logs. induction afterPlayers as [|p l IH]; intros logs; simpl.
  - by rewrite app_nil_r.
  - destruct (bool_decide_reflect (playerId p ∈ beforePlayers)) as [Hin|Hin]; simpl.
    2: { rewrite IH, filter_cons_False; [done|]. by intros (_ & ? & _). }
    destruct (Nat.leb_spec (position p) 4) as [Hle|Hgt]; simpl.
    2: { rewrite IH, filter_cons_False; [done|]. intros (_ & _ & ? & _). lia. }
    destruct (notified p) eqn:Hn; simpl.
    { rewrite IH, filter_cons_False; [done|]. intros (_ & _ & _ & ?). congruence. }
    unfold sendNotification. simpl. case_decide as Hreg.
    + rewrite IH, filter_cons_True by done. simpl. by rewrite <- app_assoc.
    + rewrite IH, filter_cons_False; [done|]. by intros (? & _).
Qed.

Lemma notifyImproved_unnamed (registered beforePlayers : gset string)
    (afterPlayers : list QueueEntry) (logs : NotificationLogs) :
  notifyImproved registered beforePlayers None afterPlayers logs =
    (match filter (λ player,
                     playerId player ∈ registered ∧
                     playerId player ∈ beforePlayers ∧
                     (position player ≤ 4)%nat ∧
                     notified player = false)
                  afterPlayers with
     | [] => inr ()
     | _ :: _ => inl UndefinedFieldValue
     end, logs).
Proof.
  induction afterPlayers as [|p l IH]; simpl; [done|].
  destruct (bool_decide_reflect (playerId p ∈ beforePlayers)) as [Hin|Hin]; simpl.
  2: { rewrite IH, filter_cons_False; [done|]. by intros (_ & ? & _). }
  destruct (Nat.leb_spec (position p) 4) as [Hle|Hgt]; simpl.
  2: { rewrite IH, filter_cons_False; [done|]. intros (_ & _ & ? & _). lia. }
  destruct (notified p) eqn:Hn; simpl.
  { rewrite IH, filter_cons_False; [done|]. intros (_ & _ & _ & ?). congruence. }
  unfold sendNotification. simpl. case_decide as Hreg.
  + by rewrite filter_cons_True.
  + rewrite IH, filter_cons_False; [done|]. by intros (? & _).
Qed.

(** X7: what the [onQueueUpdate] trigger does.  Call an entry of the
    updated queue due when its player has a [players] document, was in the
    queue before the update, and the entry has position at most 4 and is
    not yet notified.  When the queue document has a [courtName], the
    trigger returns and logs one notification per due entry, in queue
    order, NEXT_UP for the positions 1 and 2 and APPROACHING for 3 and 4.
    When it has none, as all queue documents this code base writes, the
    trigger returns only if no entry is due; otherwise it throws at the
    first due entry and logs nothing.  In no case does it log a
    notification for a player who was not in the queue before. *)
Theorem onQueueUpdate_due_entries (registered : gset string) (before after : QueueDoc)
    (courtName : option string) (logs : NotificationLogs) :
  let due :=
    filter (λ player,
              playerId player ∈ registered ∧
              playerId player ∈ playerId <$> playersOf before ∧
              (position player ≤ 4)%nat ∧
              notified player = false)
           (playersOf after) in
  onQueueUpdate registered before after courtName logs =
    match courtName with
    | Some name =>
        (inr (),
         logs ++
           ((λ player,
               mkNotificationRequest (playerId player)
                 (if (position player <=? 2)%nat then NEXT_UP else APPROACHING)
                 (Some name) (position player)) <$> due))
    | None =>
        (match due with [] => inr () | _ :: _ => inl UndefinedFieldValue end, logs)
    end ∧
  ∃ added,
    snd (onQueueUpdate registered before after courtName logs) = logs ++ added ∧
    Forall (λ r, request_playerId r ∈ playerId <$> playersOf before) added.
Proof.
  intros due.
  assert (due =
          filter (λ player,
                    playerId player ∈ registered ∧
                    playerId player ∈
                      (list_to_set (playerId <$> playersOf before) : gset string) ∧
                    (position player ≤ 4)%nat ∧
                    notified player = false)
                 (playersOf after)) as Hdue.
  { subst due. apply filter_ext_Forall, Forall_forall. intros p _.
    by rewrite elem_of_list_to_set. }
  assert (Forall (λ p, playerId p ∈ playerId <$> playersOf before) due) as Hbefore.
  { subst due. apply Forall_forall. intros p Hp%list_elem_of_filter. tauto. }
  unfold onQueueUpdate. destruct courtName as [name|].
  - rewrite notifyImproved_named, <- Hdue. split; [done|].
    eexists. split; [done|].
    by rewrite Forall_fmap.
  - rewrite notifyImproved_unnamed, <- Hdue. split; [done|].
    exists []. by rewrite app_nil_r.
Qed.

(** After E has left the sample queue, F moves to the front; the trigger
    for that update throws, since the queue document has no court name. *)
Example onQueueUpdate_after_leave :
  let before := mkQueueDoc "court-1" (Some Sample.queue2) 0 in
  let db := snd (leaveQueue "queue-1" "E" 7 Sample.store) in
  ∃ after,
    queues db !! "queue-1" = Some after ∧
    playersOf after = [mkQueueEntry "F" 0 1 false] ∧
    onQueueUpdate {["E"; "F"]} before after None [] = (inl UndefinedFieldValue, []) ∧
    onQueueUpdate {["E"; "F"]} before after (Some "Court 1") [] =
      (inr (), [mkNotificationRequest "F" NEXT_UP (Some "Court 1") 1]) ∧
    onQueueUpdate ∅ before after None [] = (inr (), []).
Proof. eexists. repeat split; reflexivity. Qed.

End Notifications.

(** ** Game ledger: validation, partial writes and the life of a game *)

Section GameLifecycle.

Import GameService GameQueries.

(** X8: the validation of [createGame].  It throws "Game requires exactly 4
    players" exactly when the player list does not have length 4, and
    "Invalid team configuration" exactly when it has but a team is missing
    or does not have 2 players; in both cases nothing is written. *)
Theorem createGame_validation (cid qid : string) (plrs : list string) (tms : TeamsInput)
    (fid newId : string) (now : Z) (db : Store) :
  let outcome := createGame cid qid plrs tms fid newId now db in
  (fst outcome = inl GameRequiresFourPlayers ↔ length plrs ≠ 4%nat) ∧
  (fst outcome = inl InvalidTeamConfiguration
     ↔ length plrs = 4%nat ∧ ¬ teams_accepted tms) ∧
  (fst outcome = inl GameRequiresFourPlayers ∨
   fst outcome = inl InvalidTeamConfiguration → snd outcome = db).
Proof.
  unfold createGame, teams_accepted. db_unfold.
  destruct (Nat.eqb_spec (length plrs) 4) as [Hp|Hp]; simpl.
  2: { split; [done|]. split; [|done]. split; [done | by intros [? _]]. }
  destruct tms as [[t1|] [t2|]]; simpl.
  - destruct (Nat.eqb_spec (length t1) 2) as [H1|H1];
      destruct (Nat.eqb_spec (length t2) 2) as [H2|H2]; simpl.
    + destruct (courts db !! cid); simpl.
      * split; [done|]. split; [|by intros [|]].
        split; [done|]. intros [_ []]. by exists t1, t2.
      * split; [done|]. split; [|by intros [|]].
        split; [done|]. intros [_ []]. by exists t1, t2.
    + split; [done|]. split; [|done]. split; [|done].
      intros _. split; [done|]. intros (? & ? & [= <-] & [= <-] & _ & ?). done.
    + split; [done|]. split; [|done]. split; [|done].
      intros _. split; [done|]. intros (? & ? & [= <-] & [= <-] & ? & _). done.
    + split; [done|]. split; [|done]. split; [|done].
      intros _. split; [done|]. intros (? & ? & [= <-] & [= <-] & ? & _). done.
  - split; [done|]. split; [|done]. split; [|done].
    intros _. split; [done|]. by intros (? & ? & _ & ? & _).
  - split; [done|]. split; [|done]. split; [|done].
    intros _. split; [done|]. by intros (? & ? & ? & _).
  - split; [done|]. split; [|done]. split; [|done].
    intros _. split; [done|]. by intros (? & ? & ? & _).
Qed.

Example createGame_validation_samples :
  createGame "court-1" "queue-1" ["E"; "F"; "G"] Sample.teamsInput "facility-1"
    "game-2" 2000 Sample.store = (inl GameRequiresFourPlayers, Sample.store) ∧
  createGame "court-1" "queue-1" ["E"; "F"; "G"; "H"]
    (mkTeamsInput (Some ["E"; "F"; "G"]) (Some ["H"])) "facility-1"
    "game-2" 2000 Sample.store = (inl InvalidTeamConfiguration, Sample.store) ∧
  createGame "court-1" "queue-1" ["E"; "F"; "G"; "H"]
    (mkTeamsInput (Some ["E"; "F"]) None) "facility-1"
    "game-2" 2000 Sample.store = (inl InvalidTeamConfiguration, Sample.store).
Proof. repeat split; reflexivity. Qed.

(** X9: [createGame] is not atomic.  A valid request for a court whose
    document does not exist throws (the court update finds no document),
    but the game is already stored, in progress, under the generated id. *)
Theorem createGame_missing_court (cid qid : string) (plrs t1 t2 : list string)
    (fid newId : string) (now : Z) (db : Store) :
  length plrs = 4%nat → length t1 = 2%nat → length t2 = 2%nat →
  courts db !! cid = None →
  createGame cid qid plrs (mkTeamsInput (Some t1) (Some t2)) fid newId now db =
    (inl DocumentNotFound,
     set_games
       (insert newId
          (mkGame cid qid fid plrs (mkTeams t1 t2) now None None None None in_progress))
       db).
Proof.
  intros Hp H1 H2 Hc. unfold createGame. db_unfold.
  rewrite Hp, H1, H2. simpl. by rewrite Hc.
Qed.

Lemma createGame_missing_court_sample :
  courts Sample.store !! "court-9" = None ∧
  fst (createGame "court-9" "queue-1" ["E"; "F"; "G"; "H"] Sample.teamsInput
         "facility-1" "game-2" 2000 Sample.store) = inl DocumentNotFound ∧
  status <$> games (snd (createGame "court-9" "queue-1" ["E"; "F"; "G"; "H"]
                           Sample.teamsInput "facility-1" "game-2" 2000 Sample.store))
               !! "game-2" = Some in_progress.
Proof.
  split; [reflexivity|]. unfold Sample.teamsInput.
  rewrite (createGame_missing_court "court-9" "queue-1" ["E"; "F"; "G"; "H"]
             ["E"; "F"] ["G"; "H"] "facility-1" "game-2" 2000 Sample.store);
    [split|..]; reflexivity.
Defined.

(** X10: [endGame] is not atomic either.  For a game in progress whose
    court document does not exist it throws, but only after it has stored
    the game as completed with winner, score and duration; no game metric
    is stored, and every later [endGame] of that game throws "Game already
    ended", so none ever will be. *)
Theorem endGame_missing_court (gid : string) (sc sc' : Score)
    (now hours day now' hours' day' : Z) (db : Store) (gameData : Game) :
  games db !! gid = Some gameData →
  status gameData = in_progress →
  courts db !! courtId gameData = None →
  ∃ db1,
    endGame gid sc now hours day db = (inl DocumentNotFound, db1) ∧
    games db1 !! gid =
      Some (mkGame (courtId gameData) (queueId gameData) (facilityId gameData)
              (players gameData) (teams gameData) (startedAt gameData)
              (Some now) (Some (now - startedAt gameData)) (Some sc)
              (Some (winnerOf sc)) completed) ∧
    gameMetrics db1 = gameMetrics db ∧
    endGame gid sc' now' hours' day' db1 = (inl GameAlreadyEnded, db1).
Proof.
  intros Hg Hstatus Hc. unfold endGame, storeGameMetrics. db_unfold.
  rewrite Hg. rewrite bool_decide_eq_false_2 by (rewrite Hstatus; done).
  simpl. rewrite Hg. simpl. rewrite Hc.
  eexists. split; [done|]. simpl. rewrite lookup_insert_eq. done.
Qed.

Lemma endGame_missing_court_sample :
  let db := set_courts (delete "court-1") Sample.store in
  games db !! "game-1" = Some Sample.game1 ∧
  courts db !! "court-1" = None ∧
  ∃ db1,
    endGame "game-1" (mkScore 11 5) 1720 14 3 db = (inl DocumentNotFound, db1) ∧
    status <$> games db1 !! "game-1" = Some completed ∧
    gameMetrics db1 = [] ∧
    endGame "game-1" (mkScore 11 5) 1800 14 3 db1 = (inl GameAlreadyEnded, db1).
Proof.
  split; [reflexivity|]. split; [reflexivity|].
  destruct (endGame_missing_court "game-1" (mkScore 11 5) (mkScore 11 5)
              1720 14 3 1800 14 3 (set_courts (delete "court-1") Sample.store)
              Sample.game1)
    as (db1 & Hrun & Hgame & Hmetrics & Hagain); [reflexivity..|].
  exists db1. split; [exact Hrun|]. split; [by rewrite Hgame|].
  split; [exact Hmetrics | exact Hagain].
Defined.

End GameLifecycle.

Section GameRecord.

Import GameService GameQueries QueueService.

(** X11: a game is ended once.  After a successful [endGame], every further
    [endGame] of the same game, with whatever score, throws "Game already
    ended" and writes nothing: the recorded score, winner and duration
    stand. *)
Theorem endGame_only_once (gid : string) (sc sc' : Score)
    (now hours day now' hours' day' : Z) (db : Store) (gameData : Game) (court : CourtDoc) :
  games db !! gid = Some gameData →
  status gameData = in_progress →
  courts db !! courtId gameData = Some court →
  ∃ ended db1,
    endGame gid sc now hours day db = (inr ended, db1) ∧
    endGame gid sc' now' hours' day' db1 = (inl GameAlreadyEnded, db1).
Proof.
  intros Hg Hstatus Hc.
  rewrite (endGame_run gid sc now hours day db gameData court Hg Hstatus Hc).
  eexists _, _. split; [done|].
  unfold endGame. db_unfold. rewrite lookup_insert_eq. done.
Qed.

Lemma endGame_only_once_sample :
  games Sample.store !! "game-1" = Some Sample.game1 ∧
  ∃ ended db1,
    endGame "game-1" (mkScore 11 5) 1720 14 3 Sample.store = (inr ended, db1) ∧
    endGame "game-1" (mkScore 0 11) 1800 14 3 db1 = (inl GameAlreadyEnded, db1).
Proof.
  split; [reflexivity|].
  apply (endGame_only_once "game-1" (mkScore 11 5) (mkScore 0 11) 1720 14 3 1800 14 3
           Sample.store Sample.game1 (mkCourtDoc "facility-1" in_game (Some "game-1")));
    reflexivity.
Defined.

(** X12: [processGameEnd] has no such guard.  Run after [endGame], as the
    end-game route does, it succeeds on the completed game and replaces the
    end time and the duration by those of its own clock, while the game
    metric stored by [endGame] keeps the duration [endGame] computed. *)
Theorem processGameEnd_overwrites_record (gid : string) (s1 s2 : Z)
    (now1 hours day now2 : Z) (recentGames : list Game) (db : Store)
    (gameData : Game) (court : CourtDoc) (queueData : QueueDoc) (wins : Z) :
  games db !! gid = Some gameData →
  status gameData = in_progress →
  courts db !! courtId gameData = Some court →
  queues db !! queueId gameData = Some queueData →
  countConsecutiveWins
    (team (teams gameData) (winningTeamKey (mkGameEndInput s1 s2)))
    (take (Z.to_nat MAX_CONSECUTIVE_WINS) recentGames) 0 = inr wins →
  ∃ ended db1 rotated db2,
    endGame gid (mkScore s1 s2) now1 hours day db = (inr ended, db1) ∧
    processGameEnd gid (mkGameEndInput s1 s2) recentGames now2 db1 = (inr rotated, db2) ∧
    endedAt <$> games db2 !! gid = Some (Some now2) ∧
    duration <$> games db2 !! gid = Some (Some (now2 - startedAt gameData)) ∧
    end_duration rotated = now2 - startedAt gameData ∧
    ended_duration ended = now1 - startedAt gameData ∧
    metric_duration <$> gameMetrics db2
      = (metric_duration <$> gameMetrics db) ++ [now1 - startedAt gameData].
Proof.
  intros Hg Hstatus Hc Hq Hwins.
  rewrite (endGame_run gid (mkScore s1 s2) now1 hours day db gameData court
             Hg Hstatus Hc).
  eexists _, _. eexists _, _. split; [done|].
  match goal with
  | |- processGameEnd _ _ _ _ ?db1 = _ ∧ _ =>
      pose proof (processGameEnd_run gid (mkGameEndInput s1 s2) recentGames now2 db1)
        as Hrot
  end.
  simpl in Hrot. rewrite lookup_insert_eq in Hrot.
  specialize (Hrot _ queueData wins eq_refl Hq Hwins). simpl in Hrot.
  split; [exact Hrot|]. simpl. rewrite lookup_insert_eq. simpl.
  by rewrite fmap_app.
Qed.

Lemma processGameEnd_overwrites_record_sample :
  games Sample.store !! "game-1" = Some Sample.game1 ∧
  ∃ ended db1 rotated db2,
    endGame "game-1" (mkScore 11 5) 1720 14 3 Sample.store = (inr ended, db1) ∧
    processGameEnd "game-1" (mkGameEndInput 11 5) [] 1725 db1 = (inr rotated, db2) ∧
    duration <$> games db2 !! "game-1" = Some (Some 725) ∧
    metric_duration <$> gameMetrics db2 = [720].
Proof.
  split; [reflexivity|].
  destruct (processGameEnd_overwrites_record "game-1" 11 5 1720 14 3 1725 []
              Sample.store Sample.game1
              (mkCourtDoc "facility-1" in_game (Some "game-1"))
              (mkQueueDoc "court-1" (Some Sample.queue2) 0) 0)
    as (ended & db1 & rotated & db2 & Hend & Hrot & _ & Hdur & _ & _ & Hmetric);
    [reflexivity..|].
  exists ended, db1, rotated, db2.
  split; [exact Hend|]. split; [exact Hrot|]. split; [exact Hdur | exact Hmetric].
Defined.

Lemma inProgressOn_insert_completed (cid gid : string) (g : Game) (db : Store) :
  games db !! gid = None → status g = completed →
  inProgressOn cid (set_games (insert gid g) db) = inProgressOn cid db.
Proof.
  intros Hnew Hstatus. unfold inProgressOn. simpl.
  rewrite map_filter_insert_False, delete_id; [done..|].
  simpl. rewrite Hstatus. by intros [_ ?].
Qed.

(** X13: the life of a game.  For a valid request on an existing court and
    a fresh id, [createGame] stores the game and [getGame] reads it back;
    [endGame] of it then succeeds with duration end time minus start time,
    leaves the court available without a current game, appends one game
    metric with that duration, and the court has as many games in progress
    as before the game was created. *)
Theorem game_lifecycle (cid qid : string) (plrs t1 t2 : list string) (fid newId : string)
    (sc : Score) (now1 now2 hours day : Z) (db : Store) (court : CourtDoc) :
  length plrs = 4%nat → length t1 = 2%nat → length t2 = 2%nat →
  courts db !! cid = Some court →
  games db !! newId = None →
  ∃ created db1 ended db2,
    createGame cid qid plrs (mkTeamsInput (Some t1) (Some t2)) fid newId now1 db
      = (inr created, db1) ∧
    getGame newId db1 = (inr (newId, created_game created), db1) ∧
    endGame newId sc now2 hours day db1 = (inr ended, db2) ∧
    ended_duration ended = now2 - now1 ∧
    getGame newId db2 =
      (inr (newId,
            mkGame cid qid fid plrs (mkTeams t1 t2) now1 (Some now2)
                   (Some (now2 - now1)) (Some sc) (Some (winnerOf sc)) completed),
       db2) ∧
    courts db2 !! cid = Some (mkCourtDoc (court_facilityId court) available None) ∧
    gameMetrics db2 =
      gameMetrics db ++ [mkGameMetric newId (now2 - now1) plrs cid fid hours day now2] ∧
    inProgressOn cid db2 = inProgressOn cid db.
Proof.
  intros Hp H1 H2 Hc Hnew.
  rewrite (createGame_run cid qid plrs t1 t2 fid newId now1 db court Hp H1 H2 Hc).
  eexists _, _. eexists _, _. split; [done|].
  split. { unfold getGame. db_unfold. by rewrite lookup_insert_eq. }
  match goal with
  | |- endGame _ _ _ _ _ ?db1 = _ ∧ _ =>
      pose proof (endGame_run newId sc now2 hours day db1) as Hend
  end.
  simpl in Hend. rewrite !lookup_insert_eq in Hend.
  specialize (Hend _ (mkCourtDoc (court_facilityId court) in_game (Some newId))
                eq_refl eq_refl).
  simpl in Hend. rewrite lookup_insert_eq in Hend. specialize (Hend eq_refl).
  simpl in Hend.
  split; [exact Hend|]. simpl.
  split; [done|].
  split. { unfold getGame. db_unfold. by rewrite lookup_insert_eq. }
  rewrite !lookup_insert_eq. split; [done|]. split; [done|].
  rewrite insert_insert_eq.
  by apply (inProgressOn_insert_completed cid newId _ db).
Qed.

End GameRecord.

Section GameLifecycleSample.

Import GameService GameQueries.

Lemma game_lifecycle_sample :
  courts Sample.store !! "court-1"
    = Some (mkCourtDoc "facility-1" in_game (Some "game-1")) ∧
  games Sample.store !! "game-2" = None ∧
  ∃ created db1 ended db2,
    createGame "court-1" "queue-1" ["E"; "F"; "G"; "H"]
      (mkTeamsInput (Some ["E"; "F"]) (Some ["G"; "H"])) "facility-1" "game-2" 2000
      Sample.store = (inr created, db1) ∧
    endGame "game-2" (mkScore 11 7) 2900 15 3 db1 = (inr ended, db2) ∧
    ended_duration ended = 900 ∧
    courts db2 !! "court-1" = Some (mkCourtDoc "facility-1" available None) ∧
    inProgressOn "court-1" db2 = inProgressOn "court-1" Sample.store.
Proof.
  split; [reflexivity|]. split; [reflexivity|].
  destruct (game_lifecycle "court-1" "queue-1" ["E"; "F"; "G"; "H"] ["E"; "F"]
              ["G"; "H"] "facility-1" "game-2" (mkScore 11 7) 2000 2900 15 3
              Sample.store (mkCourtDoc "facility-1" in_game (Some "game-1")))
    as (created & db1 & ended & db2 & Hc & _ & He & Hd & _ & Hcourt & _ & Hn);
    [reflexivity..|].
  exists created, db1, ended, db2.
  split; [exact Hc|]. split; [exact He|]. split; [exact Hd|].
  split; [exact Hcourt | exact Hn].
Defined.

End GameLifecycleSample.

(** ** Wait-time estimates: bounds, default and monotonicity *)

Section EstimateBounds.

Import PredictionService.

Local Open Scope R_scope.

Lemma big_sum_le (f g : nat → R) (n : nat) :
  (∀ i, (i < n)%nat → f i <= g i) → big_sum f n <= big_sum g n.
Proof.
  induction n as [|n IH]; intros Hfg; simpl; [lra|].
  assert (big_sum f n <= big_sum g n) by (apply IH; intros; apply Hfg; lia).
  assert (f n <= g n) by (apply Hfg; lia). lra.
Qed.

Lemma weight_pos (i : nat) : 0 < weight i.
Proof. apply exp_pos. Qed.

(** Over the reals, a lower bound of the samples is a lower bound of their
    weighted average. *)
Lemma calculateWeightedAverage_ge (values : list R) (lo : R) :
  (0 < length values)%nat →
  Forall (λ v, lo <= v) values →
  lo <= calculateWeightedAverage values.
Proof.
  intros Hlen Hall.
  rewrite calculateWeightedAverage_as_sums by done.
  unfold weighted_average_formula.
  pose proof (big_sum_weight_pos (length values) Hlen) as Hpos.
  assert (lo * big_sum weight (length values)
            <= big_sum (λ i, nth i values 0 * weight i) (length values)) as Hlo.
  { rewrite <- big_sum_scale. apply big_sum_le. intros i Hi.
    pose proof (weight_pos i).
    assert (lo <= nth i values 0).
    { rewrite nth_lookup.
      destruct (lookup_lt_is_Some_2 values i Hi) as [v Hv]. rewrite Hv. simpl.
      by apply (Forall_lookup_1 _ _ _ _ Hall Hv). }
    nra. }
  apply Rmult_le_reg_r with (big_sum weight (length values)); [done|].
  unfold Rdiv. rewrite Rmult_assoc, Rinv_l by lra. lra.
Qed.

Lemma Int_part_le (x y : R) : x <= y → (Int_part x ≤ Int_part y)%Z.
Proof.
  intros Hxy.
  destruct (base_Int_part x) as [Hx _]. destruct (base_Int_part y) as [_ Hy].
  assert (IZR (Int_part x) < IZR (Int_part y + 1)) as Hlt
    by (rewrite plus_IZR; lra).
  apply lt_IZR in Hlt. lia.
Qed.

Lemma round_le (x y : R) : x <= y → (round x ≤ round y)%Z.
Proof. intros Hxy. apply Int_part_le. lra. Qed.

Lemma getAverageGameDuration_nonneg (reads : MetricReads) :
  reads_nonneg reads → 0 <= getAverageGameDuration reads.
Proof.
  intros (Hc & Ha & Hf). unfold getAverageGameDuration.
  assert (∀ l : list Z, (MIN_GAMES_FOR_PREDICTION <=? length l)%nat = true →
            Forall (λ d, (0 ≤ d)%Z) l →
            0 <= calculateWeightedAverage (IZR <$> l)) as Htier.
  { intros l Hlen%Nat.leb_le Hl. unfold MIN_GAMES_FOR_PREDICTION in Hlen.
    apply calculateWeightedAverage_ge; [rewrite length_fmap; lia|].
    apply Forall_fmap. eapply Forall_impl; [exact Hl|].
    simpl. intros d Hd. by apply IZR_le. }
  assert (0 <= DEFAULT_GAME_DURATION_SECONDS)
    by (unfold DEFAULT_GAME_DURATION_SECONDS; lra).
  destruct (_ <=? length (contextualGames reads))%nat eqn:H1; [by apply Htier|].
  destruct (_ <=? length (allGames reads))%nat eqn:H2; [by apply Htier|].
  destruct (facilityGames reads) as [durations|]; [|done].
  destruct (_ <=? length durations)%nat eqn:H3; [by apply Htier | done].
Qed.

Lemma getAverageGameDuration_default (reads : MetricReads) :
  reads_insufficient reads →
  getAverageGameDuration reads = DEFAULT_GAME_DURATION_SECONDS.
Proof.
  intros (Hc & Ha & Hf). unfold getAverageGameDuration, MIN_GAMES_FOR_PREDICTION.
  destruct (Nat.leb_spec 10 (length (contextualGames reads))); [lia|].
  destruct (Nat.leb_spec 10 (length (allGames reads))); [lia|].
  destruct (facilityGames reads) as [durations|]; [|done]. simpl in Hf.
  destruct (Nat.leb_spec 10 (length durations)); [lia | done].
Qed.

(** X15: without enough history the server estimate is 15 minutes per
    game.  When none of the three metric queries returns 10 documents,
    [predictWaitTime] on an existing queue answers with an average game of
    15 minutes and a wait of 15 minutes (900 seconds) times the number of
    games until the player is up, the ceiling of [position / 2]. *)
Theorem predictWaitTime_default (qid : string) (position : Z) (reads : MetricReads)
    (db : Store) (queueData : QueueDoc) :
  queues db !! qid = Some queueData →
  reads_insufficient reads →
  predictWaitTime qid position reads db =
    (inr (mkPrediction (15 * ((position + 1) / 2))
                       (900 * ((position + 1) / 2))
                       ((position + 1) / 2)
                       15),
     db).
Proof.
  intros Hq Hreads. unfold predictWaitTime. db_unfold. rewrite Hq.
  rewrite getAverageGameDuration_default by done.
  unfold DEFAULT_GAME_DURATION_SECONDS.
  rewrite (Qceiling_div_pos position 2).
  replace (position + 2 - 1)%Z with (position + 1)%Z by lia.
  set (g := ((position + 1) / 2)%Z).
  replace (IZR g * (15 * 60) / 60) with (IZR (15 * g)) by (rewrite mult_IZR; lra).
  replace (IZR g * (15 * 60)) with (IZR (900 * g)) by (rewrite mult_IZR; lra).
  replace (15 * 60 / 60) with (IZR 15) by lra.
  by rewrite !round_IZR.
Qed.

Lemma predictWaitTime_default_sample :
  queues Sample.store !! "queue-1" = Some (mkQueueDoc "court-1" (Some Sample.queue2) 0) ∧
  reads_insufficient (mkMetricReads [700%Z; 800%Z] [] None) ∧
  predictWaitTime "queue-1" 3 (mkMetricReads [700%Z; 800%Z] [] None) Sample.store =
    (inr (mkPrediction 30 1800 2 15), Sample.store).
Proof.
  assert (reads_insufficient (mkMetricReads [700%Z; 800%Z] [] None)) as Hreads
    by (repeat split; simpl; lia).
  split; [reflexivity|]. split; [exact Hreads|].
  apply (predictWaitTime_default "queue-1" 3 (mkMetricReads [700%Z; 800%Z] [] None)
           Sample.store (mkQueueDoc "court-1" (Some Sample.queue2) 0) eq_refl Hreads).
Defined.

(** X16: the server estimate never gets shorter further back in the queue.
    When the recorded durations are not negative, a larger position gets at
    least as many games until up, and at least as long a wait in seconds and
    in minutes. *)
Theorem predictWaitTime_monotone (qid : string) (p q : Z) (reads : MetricReads)
    (db : Store) (queueData : QueueDoc) :
  queues db !! qid = Some queueData →
  reads_nonneg reads →
  (p ≤ q)%Z →
  ∃ predP predQ,
    predictWaitTime qid p reads db = (inr predP, db) ∧
    predictWaitTime qid q reads db = (inr predQ, db) ∧
    (gamesUntilUp predP ≤ gamesUntilUp predQ)%Z ∧
    (estimatedWaitSeconds predP ≤ estimatedWaitSeconds predQ)%Z ∧
    (estimatedWaitMinutes predP ≤ estimatedWaitMinutes predQ)%Z.
Proof.
  intros Hq Hreads Hpq. unfold predictWaitTime. db_unfold. rewrite Hq.
  eexists _, _. split; [done|]. split; [done|]. simpl.
  rewrite !(Qceiling_div_pos _ 2).
  pose proof (getAverageGameDuration_nonneg reads Hreads) as Havg.
  set (avg := getAverageGameDuration reads) in *.
  assert ((p + 2 - 1) / 2 ≤ (q + 2 - 1) / 2)%Z as Hg
    by (apply Z.div_le_mono; lia).
  apply IZR_le in Hg.
  split; [by apply le_IZR|].
  split; apply round_le; nra.
Qed.

Lemma predictWaitTime_monotone_sample :
  queues Sample.store !! "queue-1" = Some (mkQueueDoc "court-1" (Some Sample.queue2) 0) ∧
  reads_nonneg Sample.reads720 ∧
  (1 ≤ 4)%Z ∧
  ∃ predP predQ,
    predictWaitTime "queue-1" 1 Sample.reads720 Sample.store = (inr predP, Sample.store) ∧
    predictWaitTime "queue-1" 4 Sample.reads720 Sample.store = (inr predQ, Sample.store) ∧
    (estimatedWaitMinutes predP ≤ estimatedWaitMinutes predQ)%Z.
Proof.
  assert (reads_nonneg Sample.reads720) as Hreads.
  { repeat split; simpl; repeat constructor; lia. }
  split; [reflexivity|]. split; [exact Hreads|]. split; [lia|].
  destruct (predictWaitTime_monotone "queue-1" 1 4 Sample.reads720 Sample.store
              (mkQueueDoc "court-1" (Some Sample.queue2) 0) eq_refl Hreads)
    as (predP & predQ & HP & HQ & _ & _ & Hmin); [lia|].
  exists predP, predQ. split; [exact HP|]. split; [exact HQ | exact Hmin].
Defined.

End EstimateBounds.

Section ClientEstimate.

Import GameDurationService.

Lemma Qdiv_le_mono (a b e e' : Q) :
  (0 <= a)%Q → (a <= b)%Q → (1 <= e)%Q → (e <= e')%Q → (a / e' <= b / e)%Q.
Proof.
  intros Ha Hab He Hee'.
  assert (0 < e)%Q as Hpos by Lqa.lra.
  assert (0 < e')%Q as Hpos' by Lqa.lra.
  apply Qle_shift_div_r; [done|].
  assert (0 <= b / e)%Q as Hy.
  { apply Qle_shift_div_l; [done|]. Lqa.lra. }
  assert (b / e * e == b)%Q as Hmul by (field; Lqa.lra).
  set (y := (b / e)%Q) in *.
  apply Qle_trans with (y * e)%Q; [Lqa.lra|].
  Lqa.nra.
Qed.

Lemma effectiveCourts_mono (c c' : Q) :
  (c <= c')%Q → (1 <= effectiveCourts c)%Q ∧ (effectiveCourts c <= effectiveCourts c')%Q.
Proof.
  intros Hcc'. unfold effectiveCourts, parallelEfficiency. split.
  - apply Q.le_max_l.
  - apply Q.max_le_compat_l. Lqa.lra.
Qed.

Lemma predictWaitTime_nonneg (position : Z) (avg c : Q) :
  0 ≤ predictWaitTime position avg c.
Proof. unfold predictWaitTime. destruct (position <=? 0); lia. Qed.

(** X17: the mobile estimate is monotone.  With a non-negative average game
    duration, a player further back and with no more active courts never
    gets a shorter estimate: for [p <= q] and [c <= c'],
    [predictWaitTime p avg c' <= predictWaitTime q avg c]. *)
Theorem client_predictWaitTime_monotone (p q : Z) (avg c c' : Q) :
  p ≤ q → (0 <= avg)%Q → (c <= c')%Q →
  predictWaitTime p avg c' ≤ predictWaitTime q avg c.
Proof.
  intros Hpq Havg Hcc'.
  unfold predictWaitTime at 1.
  destruct (Z.leb_spec p 0) as [Hp|Hp]; [apply predictWaitTime_nonneg|].
  unfold predictWaitTime.
  destruct (Z.leb_spec q 0) as [Hq|Hq]; [lia|].
  apply Z.max_le_compat_l. apply Z.mul_le_mono_nonneg_r; [lia|].
  unfold round. apply Qfloor_resp_le.
  apply Qplus_le_l. unfold Qdiv at 1 2. apply Qmult_le_compat_r; [|done].
  unfold estimatedMinutes.
  destruct (effectiveCourts_mono c c' Hcc') as [He Hee'].
  unfold gamesNeeded, playersPerGame. rewrite !(Qceiling_div_pos _ 4).
  assert (1 ≤ (p + 4 - 1) / 4 ≤ (q + 4 - 1) / 4) as [Hg1 Hg2].
  { split; [apply Z.div_le_lower_bound; lia | apply Z.div_le_mono; lia]. }
  rewrite Zle_Qle in Hg1, Hg2.
  apply Qdiv_le_mono; [| |done..].
  - apply Qmult_le_0_compat; [|done]. change 0%Q with (inject_Z 0).
    rewrite <- Zle_Qle. rewrite <- Zle_Qle in Hg1. lia.
  - by apply Qmult_le_compat_r.
Qed.

Lemma client_predictWaitTime_monotone_sample :
  2 ≤ 9 ∧ (0 <= 15)%Q ∧ (1 <= 3)%Q ∧
  predictWaitTime 2 15 3 ≤ predictWaitTime 9 15 1.
Proof.
  split; [lia|]. split; [by vm_compute|]. split; [by vm_compute|].
  apply (client_predictWaitTime_monotone 2 9 15 1 3); [lia | by vm_compute..].
Defined.

Example client_predictWaitTime_values :
  predictWaitTime 2 15 3 = 5 ∧ predictWaitTime 9 15 1 = 45 ∧
  predictWaitTime 9 15 0 = 45.
Proof. by vm_compute. Qed.

End ClientEstimate.

(** ** The score screen *)

Section ScoreScreen.

Import ScoreEntry.

Lemma press_in_range (st : ScreenState) (b : Press) :
  scores_in_range st → scores_in_range (press st b).
Proof.
  intros [H1 H2]. unfold scores_in_range.
  destruct b as [team|team]; simpl;
    unfold incrementScore, decrementScore;
    destruct (gameEnded st); [done| |done|];
    destruct (team =? 1); simpl; lia.
Qed.

Lemma press_after_end (st : ScreenState) (b : Press) :
  gameEnded st = true → press st b = st.
Proof.
  intros Hend. destruct b; simpl; unfold incrementScore, decrementScore;
    by rewrite Hend.
Qed.

(** X18: whatever buttons are pressed on the score screen, both scores
    stay between 0 and 15; and once the game is marked as ended the buttons
    change nothing. *)
Theorem score_buttons_keep_range (bs bs' : list Press) :
  let st := presses bs initial in
  scores_in_range st ∧
  presses bs' (mkScreenState (team1Score st) (team2Score st) true)
    = mkScreenState (team1Score st) (team2Score st) true.
Proof.
  simpl. split.
  - unfold presses.
    assert (scores_in_range initial) as Hinit by (unfold scores_in_range; simpl; lia).
    revert Hinit. generalize initial.
    induction bs as [|b bs IH]; intros st Hst; simpl; [done|].
    apply IH. by apply press_in_range.
  - generalize (presses bs initial). intros st. unfold presses.
    induction bs' as [|b bs' IH]; simpl; [done|].
    by rewrite press_after_end.
Qed.

Example score_buttons_sample :
  presses (replicate 20 (Plus 1) ++ [Minus 2; Plus 7]) initial
    = mkScreenState 15 1 false.
Proof. reflexivity. Qed.

(** X19: the screen and the server agree on every score the screen lets
    through.  [handleEndGame] refuses exactly the tied scores; for any other
    score it shows "Team 1" as the winner exactly when [endGame] records
    team1 and "Team 2" exactly when it records team2, and [processGameEnd]
    picks the same team. *)
Theorem handleEndGame_agrees_with_server (s1 s2 : Z) :
  match OnCourtScreen.handleEndGame s1 s2 with
  | OnCourtScreen.InvalidScore text =>
      s1 = s2 ∧ text = "Game cannot end in a tie"
  | OnCourtScreen.EndGameConfirm winnerName a b =>
      s1 ≠ s2 ∧ a = s1 ∧ b = s2 ∧
      winnerName = match GameService.winnerOf (mkScore s1 s2) with
                   | team1 => "Team 1"
                   | team2 => "Team 2"
                   end ∧
      QueueService.winningTeamKey (QueueService.mkGameEndInput s1 s2)
        = GameService.winnerOf (mkScore s1 s2)
  end.
Proof.
  unfold OnCourtScreen.handleEndGame, GameService.winnerOf,
    QueueService.winningTeamKey. simpl.
  destruct (Z.eqb_spec s1 s2) as [->|Hne]; [done|].
  by destruct (s2 <? s1).
Qed.

End ScoreScreen.

(** ** The mobile application's queue service *)

Section ClientQueue.

Import ClientQueueService.

Lemma existsb_player_uid (userId : string) (l : list Player) :
  existsb (λ p, String.eqb (player_uid p) userId) l = true ↔ userId ∈ player_uid <$> l.
Proof.
  induction l as [|p l IH]; simpl.
  - split; [discriminate | by intros ?%elem_of_nil].
  - rewrite orb_true_iff, IH, elem_of_cons, String.eqb_eq.
    split; (intros [Heq|Hin]; [left; congruence | by right]).
Qed.

Lemma existsb_player_uid_false (userId : string) (l : list Player) :
  userId ∉ player_uid <$> l →
  existsb (λ p, String.eqb (player_uid p) userId) l = false.
Proof.
  intros Hnotin. destruct (existsb _ l) eqn:Hex; [|done].
  by apply existsb_player_uid in Hex.
Qed.

Lemma client_renumber_positions (l : list Player) :
  player_position <$> ClientQueueService.renumber l = seq 1 (length l).
Proof.
  unfold ClientQueueService.renumber. rewrite fmap_imap.
  rewrite (imap_ext _ (λ j _, S j)) by (intros; simpl; lia).
  by rewrite imap_seq_0, fmap_S_seq.
Qed.

Lemma client_renumber_uid (l : list Player) :
  player_uid <$> ClientQueueService.renumber l = player_uid <$> l.
Proof.
  unfold ClientQueueService.renumber. rewrite fmap_imap.
  rewrite (imap_ext _ (λ _, player_uid)) by done.
  apply (imap_const player_uid).
Qed.

Lemma client_renumber_id (l : list Player) :
  player_position <$> l = seq 1 (length l) → ClientQueueService.renumber l = l.
Proof.
  intros Hpos. apply list_eq. intros i. unfold ClientQueueService.renumber.
  rewrite list_lookup_imap.
  destruct (l !! i) as [x|] eqn:Hx; [|done]. simpl. f_equal.
  assert ((player_position <$> l) !! i = Some (player_position x)) as Hpx
    by by rewrite list_lookup_fmap, Hx.
  rewrite Hpos in Hpx. apply lookup_seq in Hpx as [Hpx _].
  destruct x as [u n j pos]. simpl in *. f_equal. lia.
Qed.

Lemma fmap_uid_filter (userId : string) (l : list Player) :
  player_uid <$> filter (λ p, player_uid p ≠ userId) l
  = filter (λ u, u ≠ userId) (player_uid <$> l).
Proof.
  induction l as [|p l IH]; [done|].
  rewrite fmap_cons, !filter_cons. destruct (decide (player_uid p ≠ userId)).
  - by rewrite fmap_cons, IH.
  - done.
Qed.

(** X20: the mobile [leaveQueue] on an existing queue.  When the user has
    no [users] document the transaction fails and nothing changes.
    Otherwise it always succeeds, also for a user who is not in the queue:
    every entry of that user is gone, the other entries keep their order,
    the positions are [1..n] whatever they were before, and the user's
    current queue is cleared. *)
Theorem client_leaveQueue_normalizes (qid userId : string) (now : Z) (s : Store)
    (queueData : QueueDoc) :
  queues s !! qid = Some queueData →
  match users s !! userId with
  | None => leaveQueue qid userId now s = (inl UserDocumentNotFound, s)
  | Some _ =>
      ∃ s' players',
        leaveQueue qid userId now s = (inr true, s') ∧
        queues s' !! qid = Some (mkQueueDoc (Some players') now) ∧
        player_uid <$> players'
          = filter (λ u, u ≠ userId) (player_uid <$> playersOf queueData) ∧
        player_position <$> players' = seq 1 (length players') ∧
        getUserQueueStatus userId s' = None
  end.
Proof.
  intros Hq. unfold leaveQueue. rewrite Hq.
  destruct (users s !! userId) as [u|] eqn:Hu; [|done].
  eexists _, _. split; [done|]. simpl. rewrite lookup_insert_eq.
  split; [done|].
  rewrite client_renumber_uid, fmap_uid_filter. split; [done|].
  rewrite client_renumber_positions.
  unfold ClientQueueService.renumber at 1. rewrite length_imap. split; [done|].
  unfold getUserQueueStatus. simpl. by rewrite lookup_insert_eq.
Qed.

(** X21: the mobile [joinQueue] of a user who is not in the queue.  The
    entry is appended with position old length plus one, the user's current
    queue records the same queue, position and join time (and
    [getUserQueueStatus] returns it), and joining again at once throws
    "Already in this queue" without writing. *)
Theorem client_joinQueue_records_position (qid : string) (user : User)
    (nowIso nowIso' : string) (now now' : Z) (s : Store) (queueData : QueueDoc) :
  queues s !! qid = Some queueData →
  auth_uid user ∉ player_uid <$> playersOf queueData →
  ∃ joined s',
    joinQueue qid user nowIso now s = (inr joined, s') ∧
    player_position joined = (length (playersOf queueData) + 1)%nat ∧
    playersOf <$> queues s' !! qid = Some (playersOf queueData ++ [joined]) ∧
    getUserQueueStatus (auth_uid user) s'
      = Some (mkCurrentQueue FACILITY_ID qid (player_position joined) nowIso) ∧
    joinQueue qid user nowIso' now' s' = (inl AlreadyInThisQueue, s').
Proof.
  intros Hq Hfresh. unfold joinQueue at 1. rewrite Hq.
  rewrite existsb_player_uid_false by done.
  eexists _, _. split; [done|]. simpl. split; [done|].
  rewrite lookup_insert_eq. split; [done|].
  unfold getUserQueueStatus. simpl. rewrite lookup_insert_eq. split; [done|].
  unfold joinQueue. simpl. rewrite lookup_insert_eq.
  unfold playersOf at 1. simpl.
  rewrite existsb_app. simpl. rewrite String.eqb_refl.
  by rewrite orb_true_r.
Qed.

(** X22: joining and leaving in the mobile application is a round trip.
    On a queue whose positions are [1..n], a user who is not in it joins and
    leaves again, and the player list is what it was and the user has no
    current queue. *)
Theorem client_joinQueue_then_leaveQueue (qid : string) (user : User) (nowIso : string)
    (now1 now2 : Z) (s : Store) (queueData : QueueDoc) :
  queues s !! qid = Some queueData →
  player_position <$> playersOf queueData = seq 1 (length (playersOf queueData)) →
  auth_uid user ∉ player_uid <$> playersOf queueData →
  ∃ joined s1 s2,
    joinQueue qid user nowIso now1 s = (inr joined, s1) ∧
    leaveQueue qid (auth_uid user) now2 s1 = (inr true, s2) ∧
    queues s2 = <[qid := mkQueueDoc (Some (playersOf queueData)) now2]> (queues s) ∧
    getUserQueueStatus (auth_uid user) s2 = None.
Proof.
  intros Hq Hpos Hfresh. unfold joinQueue. rewrite Hq.
  rewrite existsb_player_uid_false by done.
  eexists _, _, _. split; [done|].
  unfold leaveQueue. simpl. rewrite !lookup_insert_eq.
  split; [done|]. simpl. unfold playersOf at 1. simpl.
  rewrite filter_app, filter_cons_False, filter_nil, app_nil_r by (simpl; tauto).
  rewrite filter_all_Forall.
  2: { apply Forall_forall. intros p Hp Heq. apply Hfresh.
       rewrite <- Heq. by apply list_elem_of_fmap_2. }
  rewrite client_renumber_id by done. rewrite insert_insert_eq.
  split; [done|].
  unfold getUserQueueStatus. simpl. by rewrite lookup_insert_eq.
Qed.

(** X23: the mobile service never looks at other queues.  A user who is in
    neither of two different queues can join both; the current queue then
    names the second, and after leaving the second the user has no current
    queue while still being listed in the first. *)
Theorem client_two_queues (q1 q2 : string) (user : User) (iso1 iso2 : string)
    (now1 now2 now3 : Z) (s : Store) (d1 d2 : QueueDoc) :
  q1 ≠ q2 →
  queues s !! q1 = Some d1 →
  queues s !! q2 = Some d2 →
  auth_uid user ∉ player_uid <$> playersOf d1 →
  auth_uid user ∉ player_uid <$> playersOf d2 →
  ∃ joined1 s1 joined2 s2 s3,
    joinQueue q1 user iso1 now1 s = (inr joined1, s1) ∧
    joinQueue q2 user iso2 now2 s1 = (inr joined2, s2) ∧
    current_queueId <$> getUserQueueStatus (auth_uid user) s2 = Some q2 ∧
    leaveQueue q2 (auth_uid user) now3 s2 = (inr true, s3) ∧
    getUserQueueStatus (auth_uid user) s3 = None ∧
    playersOf <$> queues s3 !! q1 = Some (playersOf d1 ++ [joined1]).
Proof.
  intros Hne Hq1 Hq2 Hf1 Hf2.
  unfold joinQueue at 1. rewrite Hq1.
  rewrite existsb_player_uid_false by done.
  eexists _, _. eexists _, _, _. split; [done|].
  unfold joinQueue. simpl. rewrite lookup_insert_ne, Hq2 by done.
  rewrite existsb_player_uid_false by done.
  split; [done|].
  unfold getUserQueueStatus. simpl. rewrite lookup_insert_eq. simpl.
  split; [done|].
  unfold leaveQueue. simpl. rewrite !lookup_insert_eq.
  split; [done|]. simpl. rewrite !lookup_insert_eq. split; [done|].
  rewrite lookup_insert_ne by done. rewrite lookup_insert_ne by done.
  by rewrite lookup_insert_eq.
Qed.

End ClientQueue.

Section ClientQueueSamples.

Import ClientQueueService.

Lemma client_leaveQueue_normalizes_sample :
  queues ClientSample.store !! "beginner" = Some ClientSample.beginner ∧
  ∃ s' players',
    leaveQueue "beginner" "u1" 9 ClientSample.store = (inr true, s') ∧
    queues s' !! "beginner" = Some (mkQueueDoc (Some players') 9) ∧
    player_uid <$> players' = ["u2"] ∧
    player_position <$> players' = seq 1 (length players') ∧
    getUserQueueStatus "u1" s' = None.
Proof.
  split; [reflexivity|].
  apply (client_leaveQueue_normalizes "beginner" "u1" 9 ClientSample.store
           ClientSample.beginner).
  reflexivity.
Defined.

Example client_leaveQueue_without_user_document :
  leaveQueue "beginner" "u2" 9 ClientSample.store
    = (inl UserDocumentNotFound, ClientSample.store).
Proof. reflexivity. Qed.

Lemma client_newcomer_fresh (d : QueueDoc) :
  d = ClientSample.beginner ∨ d = ClientSample.advanced →
  "u3" ∉ player_uid <$> playersOf d.
Proof.
  intros [->| ->]; apply (bool_decide_unpack _); by vm_compute.
Defined.

Lemma client_joinQueue_records_position_sample :
  queues ClientSample.store !! "beginner" = Some ClientSample.beginner ∧
  ∃ joined s',
    joinQueue "beginner" ClientSample.newcomer "2024-05-01T10:05:00.000Z" 5
      ClientSample.store = (inr joined, s') ∧
    player_position joined = 3%nat ∧
    player_name joined = "Player 3" ∧
    getUserQueueStatus "u3" s'
      = Some (mkCurrentQueue FACILITY_ID "beginner" (player_position joined)
                "2024-05-01T10:05:00.000Z") ∧
    joinQueue "beginner" ClientSample.newcomer "2024-05-01T10:06:00.000Z" 6 s'
      = (inl AlreadyInThisQueue, s').
Proof.
  split; [reflexivity|].
  destruct (client_joinQueue_records_position "beginner" ClientSample.newcomer
              "2024-05-01T10:05:00.000Z" "2024-05-01T10:06:00.000Z" 5 6
              ClientSample.store ClientSample.beginner eq_refl
              (client_newcomer_fresh _ (or_introl eq_refl)))
    as (joined & s' & Hrun & Hpos & _ & Hstatus & Hagain).
  exists joined, s'. split; [exact Hrun|]. split; [exact Hpos|].
  split; [by injection Hrun as <- _|]. split; [exact Hstatus | exact Hagain].
Defined.

Lemma client_joinQueue_then_leaveQueue_sample :
  queues ClientSample.store !! "beginner" = Some ClientSample.beginner ∧
  ∃ joined s1 s2,
    joinQueue "beginner" ClientSample.newcomer "2024-05-01T10:05:00.000Z" 5
      ClientSample.store = (inr joined, s1) ∧
    leaveQueue "beginner" "u3" 6 s1 = (inr true, s2) ∧
    queues s2 = <["beginner" := mkQueueDoc (Some (playersOf ClientSample.beginner)) 6]>
                  (queues ClientSample.store) ∧
    getUserQueueStatus "u3" s2 = None.
Proof.
  split; [reflexivity|].
  apply (client_joinQueue_then_leaveQueue "beginner" ClientSample.newcomer
           "2024-05-01T10:05:00.000Z" 5 6 ClientSample.store ClientSample.beginner);
    [reflexivity | reflexivity | exact (client_newcomer_fresh _ (or_introl eq_refl))].
Defined.

Lemma client_two_queues_sample :
  "beginner" ≠ "advanced" ∧
  ∃ joined1 s1 joined2 s2 s3,
    joinQueue "beginner" ClientSample.newcomer "2024-05-01T10:05:00.000Z" 5
      ClientSample.store = (inr joined1, s1) ∧
    joinQueue "advanced" ClientSample.newcomer "2024-05-01T10:06:00.000Z" 6 s1
      = (inr joined2, s2) ∧
    current_queueId <$> getUserQueueStatus "u3" s2 = Some "advanced" ∧
    leaveQueue "advanced" "u3" 7 s2 = (inr true, s3) ∧
    getUserQueueStatus "u3" s3 = None ∧
    playersOf <$> queues s3 !! "beginner"
      = Some (playersOf ClientSample.beginner ++ [joined1]).
Proof.
  assert ("beginner" ≠ "advanced") as Hne
    by (apply (bool_decide_unpack _); by vm_compute).
  split; [exact Hne|].
  apply (client_two_queues "beginner" "advanced" ClientSample.newcomer
           "2024-05-01T10:05:00.000Z" "2024-05-01T10:06:00.000Z" 5 6 7
           ClientSample.store ClientSample.beginner ClientSample.advanced);
    [exact Hne | reflexivity | reflexivity
     | exact (client_newcomer_fresh _ (or_introl eq_refl))
     | exact (client_newcomer_fresh _ (or_intror eq_refl))].
Defined.

End ClientQueueSamples.
